(** * Beam Analysis Tool: a shallow embedding of [Beam_Analysis_Tool.py]

    The program analyses a simply supported beam under a point load or a
    uniformly distributed load.  This development embeds its functions and
    proves properties of reactions, diagrams, deflection curves, unit
    conversion and the serviceability check.

    Modelling conventions.
    - Python floats are idealised as rationals ([Q], compared with [==]):
      rounding, overflow, [inf] and [nan] are outside the model.
    - The console is a [world]: the lines still to be read from standard
      input and the events already written (prompts, printed lines, figures
      shown).  An uncaught Python exception is an [outcome] of the form
      [Raise e]; the world reached when it was raised is kept.
    - A numpy array of floats is a [list Q]. *)

From Stdlib Require Import QArith Qabs ZArith String List Bool Lia Lqa.
Import ListNotations.
Open Scope Q_scope.

(** ** The Python runtime the program relies on *)

Module Py.

Inductive exn : Type :=
| ValueError
| EOFError
| ZeroDivisionError
| TypeError
| UnboundLocalError.

Inductive outcome (A : Type) : Type :=
| Ret (a : A)
| Raise (e : exn).
Arguments Ret {A} a.
Arguments Raise {A} e.

(** [x < y] and [x > y] on floats. *)
Definition ltb (x y : Q) : bool := negb (Qle_bool y x).
Definition gtb (x y : Q) : bool := ltb y x.
Definition geb (x y : Q) : bool := Qle_bool y x.

(** [x / y] on two Python floats raises on a zero divisor. *)
Definition truediv (x y : Q) : outcome Q :=
  if Qeq_bool y 0 then Raise ZeroDivisionError else Ret (x / y).

(** One line of standard input, classified by what [int] and [float] make
    of it: ["12"] is an [IntLit], ["2.5"] a [FloatLit] (accepted by
    [float] only), anything else is rejected by both. *)
Inductive line : Type :=
| IntLit (z : Z)
| FloatLit (q : Q)
| Garbage.

Definition int (l : line) : outcome Z :=
  match l with
  | IntLit z => Ret z
  | _ => Raise ValueError
  end.

Definition float (l : line) : outcome Q :=
  match l with
  | IntLit z => Ret (inject_Z z)
  | FloatLit q => Ret q
  | Garbage => Raise ValueError
  end.

(** A piece of a printed line: literal text, or a float formatted with
    [decimals] places ([{v:.3f}]). *)
Inductive frag : Type :=
| Lit (s : string)
| Num (decimals : nat) (v : Q).

(** What [plt.show()] displays: the arrays given to [plt.plot], the labels,
    and the scatter marker when there is one. *)
Record figure : Type := Figure {
  title : string;
  xlabel : string;
  ylabel : string;
  x_data : list Q;
  y_data : list Q;
  marker : option (Q * Q)
}.

Inductive event : Type :=
| Prompt (s : string)
| Print (fs : list frag)
| Show (f : figure).

Record world : Type := World {
  stdin : list line;
  stdout : list event
}.

Definition emit (e : event) (w : world) : world :=
  World (stdin w) (stdout w ++ [e]).

(** Computations on the console. *)
Definition IO (A : Type) : Type := world -> outcome A * world.

Definition ret {A} (a : A) : IO A := fun w => (Ret a, w).

Definition bind {A B} (m : IO A) (k : A -> IO B) : IO B :=
  fun w =>
    match m w with
    | (Ret a, w') => k a w'
    | (Raise e, w') => (Raise e, w')
    end.

Definition raise {A} (e : exn) : IO A := fun w => (Raise e, w).

Definition lift {A} (o : outcome A) : IO A := fun w => (o, w).

Definition print (fs : list frag) : IO unit :=
  fun w => (Ret tt, emit (Print fs) w).

Definition show (f : figure) : IO unit :=
  fun w => (Ret tt, emit (Show f) w).

(** [input(prompt)]: writes the prompt, reads one line, raises [EOFError]
    at the end of the input. *)
Definition input (prompt : string) : IO line :=
  fun w =>
    match stdin w with
    | [] => (Raise EOFError, emit (Prompt prompt) w)
    | l :: rest => (Ret l, World rest (stdout w ++ [Prompt prompt]))
    end.

(** A value that is [None] where a number is needed: the first arithmetic
    on it raises [TypeError]. *)
Definition number {A} (o : option A) : IO A :=
  match o with
  | Some v => ret v
  | None => raise TypeError
  end.

End Py.
Import Py.

Declare Scope io_scope.
Delimit Scope io_scope with io.
Notation "x <- m ;; k" := (bind m (fun x => k))
  (at level 61, m at next level, right associativity) : io_scope.
Notation "' p <- m ;; k" := (bind m (fun x => match x with p => k end))
  (at level 61, p pattern, m at next level, right associativity) : io_scope.
Notation "m ;; k" := (bind m (fun _ => k))
  (at level 61, right associativity) : io_scope.

(** The newline character of the Python string literals. *)
Definition nl : string := String (Ascii.ascii_of_nat 10) EmptyString.

(** ** Unit conversion (lines 48-88) *)

Definition convert_length (value : Q) (unit : Z) : option Q :=
  if (unit =? 1)%Z then Some value
  else if (unit =? 2)%Z then Some (value / 1000)
  else if (unit =? 3)%Z then Some (value / 100)
  else None.

Definition convert_E (value : Q) (unit : Z) : option Q :=
  if (unit =? 1)%Z then Some (value * 1e9)
  else if (unit =? 2)%Z then Some (value * 1e6)
  else None.

Definition convert_I (value : Q) (unit : Z) : option Q :=
  if (unit =? 1)%Z then Some (value * 1e-12)
  else if (unit =? 2)%Z then Some value
  else None.

Definition convert_load (value : Q) (unit : Z) : option Q :=
  if (unit =? 1)%Z then Some value
  else if (unit =? 2)%Z then Some (value * 1000)
  else None.

Definition convert_udl (value : Q) (unit : Z) : option Q :=
  if (unit =? 1)%Z then Some value
  else if (unit =? 2)%Z then Some (value * 1000)
  else None.

(** ** Closed-form deflections (lines 92-101) *)

Definition point_load_ssb (P L E I a : Q) : outcome Q :=
  let b := L - a in
  truediv (P * a * b * (L^2 - a^2 - b^2)) (6 * E * I * L).

Definition udl_ssb (w L E I : Q) : outcome Q :=
  truediv (5 * w * L^4) (384 * E * I).

(** ** Reaction forces (lines 186-204) *)

Definition reactions_point_load (P L a : Q) : IO (Q * Q) :=
  (let b := L - a in
   R1 <- lift (truediv (P * b) L) ;;
   R2 <- lift (truediv (P * a) L) ;;
   print [Lit (nl ++ "---Reaction Forces---")] ;;
   print [Lit "Left Reaction  = "; Num 3 R1; Lit " N"] ;;
   print [Lit "Right Reaction = "; Num 3 R2; Lit " N"] ;;
   ret (R1, R2))%io.

Definition reactions_udl (w L : Q) : IO (Q * Q) :=
  (let R := w * L / 2 in
   print [Lit (nl ++ "---Reaction Forces---")] ;;
   print [Lit "Left Reaction  = "; Num 3 R; Lit " N"] ;;
   print [Lit "Right Reaction = "; Num 3 R; Lit " N"] ;;
   ret (R, R))%io.

(** ** The numpy operations the program relies on

    An expression over an array is modelled as the [map] of the same
    expression over its elements.  numpy's division does not raise: on a
    zero divisor it yields [inf] or [nan], which have no rational
    counterpart, so the results about the deflection curves (the only
    arrays that are divided) assume the divisor is not zero. *)

Module Np.

(** [np.linspace(start, stop, num)]: [arange(num) * step + start] with
    [step = (stop - start) / (num - 1)], the last sample set to [stop]. *)
Definition linspace (start stop : Q) (num : nat) : list Q :=
  let div := (num - 1)%nat in
  let step := (stop - start) / inject_Z (Z.of_nat div) in
  let y := map (fun i => inject_Z (Z.of_nat i) * step + start) (seq 0 num) in
  if (1 <? num)%nat then removelast y ++ [stop] else y.

Definition zeros_like (x : list Q) : list Q := map (fun _ => 0) x.

(** A scalar broadcast to the shape of [x]. *)
Definition full_like (x : list Q) (v : Q) : list Q := map (fun _ => v) x.

(** [x < a] and [x >= a], array against scalar. *)
Definition lt (x : list Q) (a : Q) : list bool := map (fun xi => ltb xi a) x.
Definition ge (x : list Q) (a : Q) : list bool := map (fun xi => geb xi a) x.

(** [np.where(cond, u, v)] on arrays of one shape. *)
Fixpoint where_ (cond : list bool) (u v : list Q) : list Q :=
  match cond, u, v with
  | c :: cond', ui :: u', vi :: v' =>
      (if c then ui else vi) :: where_ cond' u' v'
  | _, _, _ => []
  end.

(** [x[mask]]: the elements of [x] where the mask holds, in order. *)
Fixpoint select (mask : list bool) (x : list Q) : list Q :=
  match mask, x with
  | m :: mask', xi :: x' =>
      if m then xi :: select mask' x' else select mask' x'
  | _, _ => []
  end.

(** [y[mask] = vals]: the elements of [vals] replace, in order, the
    elements of [y] where the mask holds. *)
Fixpoint assign (y : list Q) (mask : list bool) (vals : list Q) : list Q :=
  match y, mask with
  | yi :: y', m :: mask' =>
      if m then
        match vals with
        | v :: vals' => v :: assign y' mask' vals'
        | [] => yi :: assign y' mask' []
        end
      else yi :: assign y' mask' vals
  | _, _ => y
  end.

(** Python's [min] over an array: the first least element. *)
Definition min (y : list Q) : outcome Q :=
  match y with
  | [] => Raise ValueError
  | y0 :: y' => Ret (fold_left (fun m v => if ltb v m then v else m) y' y0)
  end.

End Np.

(** ** Axis scaling (lines 48-54) *)

Definition axis_length (x : list Q) (unit : Z) : option (list Q * string) :=
  if (unit =? 1)%Z then Some (x, "m"%string)
  else if (unit =? 2)%Z then Some (map (fun xi => xi * 1000) x, "mm"%string)
  else if (unit =? 3)%Z then Some (map (fun xi => xi * 100) x, "cm"%string)
  else None.

(** ** Deflection curves (lines 105-183) *)

(** Lines 108-116: the piecewise curve over the sample positions [x]. *)
Definition deflection_point_load (P L E I a : Q) (x : list Q) : list Q :=
  let b := L - a in
  let y := Np.zeros_like x in
  let mask1 := Np.lt x a in
  let y := Np.assign y mask1
    (map (fun xi => (P * b * xi / (6 * L * E * I)) * (L^2 - b^2 - xi^2))
         (Np.select mask1 x)) in
  let mask2 := Np.ge x a in
  let y := Np.assign y mask2
    (map (fun xi => (P * a * (L - xi) / (6 * L * E * I))
                    * (L^2 - a^2 - (L - xi)^2))
         (Np.select mask2 x)) in
  y.

Definition plot_point_load_ssb (P L E I a : Q) (Lunits : Z) : IO unit :=
  (let x := Np.linspace 0 L 400 in
   let y := deflection_point_load P L E I a x in
   let y_plot := map (fun yi => yi * 1000) y in
   '(x_plot, length_label) <-
     (if (Lunits =? 1)%Z then ret (x, "m"%string)
      else if (Lunits =? 2)%Z then ret (map (fun xi => xi * 1000) x, "mm"%string)
      else if (Lunits =? 3)%Z then ret (map (fun xi => xi * 100) x, "cm"%string)
      else raise UnboundLocalError) ;;
   let load_x :=
     if (Lunits =? 2)%Z then a * 1000
     else if (Lunits =? 3)%Z then a * 100
     else a in
   lowest <- lift (Np.min y_plot) ;;
   show (Figure "Deflection Curve — Simply Supported Beam (Point Load)"
                ("Beam Length (" ++ length_label ++ ")")
                "Deflection (mm)"
                x_plot y_plot (Some (load_x, lowest))))%io.

(** Line 156: the curve over the sample positions [x]. *)
Definition deflection_udl (w L E I : Q) (x : list Q) : list Q :=
  map (fun xi => (w * xi * (L^3 - 2 * L * xi^2 + xi^3)) / (24 * E * I)) x.

Definition plot_udl_ssb (w L E I : Q) (Lunits : Z) : IO unit :=
  (let x := Np.linspace 0 L 400 in
   let y := deflection_udl w L E I x in
   let y_plot := map (fun yi => yi * 1000) y in
   '(x_plot, length_label) <-
     (if (Lunits =? 1)%Z then ret (x, "m"%string)
      else if (Lunits =? 2)%Z then ret (map (fun xi => xi * 1000) x, "mm"%string)
      else if (Lunits =? 3)%Z then ret (map (fun xi => xi * 100) x, "cm"%string)
      else raise UnboundLocalError) ;;
   show (Figure "Deflection Curve — Simply Supported Beam (UDL)"
                ("Beam Length (" ++ length_label ++ ")")
                "Deflection (mm)"
                x_plot y_plot None))%io.

(** ** Shear force and bending moment diagrams (lines 208-272) *)

(** Line 211. *)
Definition shear_point (R1 P a : Q) (x : list Q) : list Q :=
  Np.where_ (Np.lt x a) (Np.full_like x R1) (Np.full_like x (R1 - P)).

Definition plot_sfd_point (R1 P a L : Q) (Lunits : Z) : IO unit :=
  (let x := Np.linspace 0 L 400 in
   '(x_plot, length_label) <- number (axis_length x Lunits) ;;
   let V := shear_point R1 P a x in
   show (Figure "Shear Force Diagram — Point Load"
                ("Beam Length (" ++ length_label ++ ")")
                "Shear Force (N)"
                x_plot V None))%io.

(** Line 227: both branches are computed over the whole array. *)
Definition moment_point_left (R1 : Q) (x : list Q) : list Q :=
  map (fun xi => R1 * xi) x.

Definition moment_point_right (R1 P a : Q) (x : list Q) : list Q :=
  map (fun xi => R1 * xi - P * (xi - a)) x.

Definition moment_point (R1 P a : Q) (x : list Q) : list Q :=
  Np.where_ (Np.lt x a) (moment_point_left R1 x) (moment_point_right R1 P a x).

Definition plot_bmd_point (R1 P a L : Q) (Lunits : Z) : IO unit :=
  (let x := Np.linspace 0 L 400 in
   '(x_plot, length_label) <- number (axis_length x Lunits) ;;
   let M := moment_point R1 P a x in
   show (Figure "Bending Moment Diagram — Point Load"
                ("Beam Length (" ++ length_label ++ ")")
                "Moment (Nm)"
                x_plot M None))%io.

(** Lines 243-244. *)
Definition shear_udl (w L : Q) (x : list Q) : list Q :=
  let R := w * L / 2 in
  map (fun xi => R - w * xi) x.

Definition plot_sfd_udl (w L : Q) (Lunits : Z) : IO unit :=
  (let x := Np.linspace 0 L 400 in
   '(x_plot, length_label) <- number (axis_length x Lunits) ;;
   let V := shear_udl w L x in
   show (Figure "Shear Force Diagram — UDL"
                ("Beam Length (" ++ length_label ++ ")")
                "Shear Force (N)"
                x_plot V None))%io.

(** Lines 260-261. *)
Definition moment_udl (w L : Q) (x : list Q) : list Q :=
  let R := w * L / 2 in
  map (fun xi => R * xi - (w * xi^2) / 2) x.

Definition plot_bmd_udl (w L : Q) (Lunits : Z) : IO unit :=
  (let x := Np.linspace 0 L 400 in
   '(x_plot, length_label) <- number (axis_length x Lunits) ;;
   let M := moment_udl w L x in
   show (Figure "Bending Moment Diagram — UDL"
                ("Beam Length (" ++ length_label ++ ")")
                "Moment (Nm)"
                x_plot M None))%io.

(** ** Guarded input (lines 24-42)

    Both functions loop until a line is accepted.  Every turn of the loop
    reads one line, so the loops are written by recursion on the lines still
    to be read; at the end of the input [input] raises [EOFError], which
    neither loop catches. *)

Fixpoint choice_input_loop (prompt : string) (valid_choices : list Z)
    (lines : list line) (out : list event) : outcome Z * world :=
  match lines with
  | [] => (Raise EOFError, World [] (out ++ [Prompt prompt]))
  | l :: rest =>
      let out := out ++ [Prompt prompt] in
      match int l with
      | Ret value =>
          if existsb (Z.eqb value) valid_choices then (Ret value, World rest out)
          else choice_input_loop prompt valid_choices rest
                 (out ++ [Print [Lit "Invalid choice. Try again."]])
      | Raise ValueError =>
          choice_input_loop prompt valid_choices rest
            (out ++ [Print [Lit "Enter a valid number."]])
      | Raise e => (Raise e, World rest out)
      end
  end.

Definition choice_input (prompt : string) (valid_choices : list Z) : IO Z :=
  fun w => choice_input_loop prompt valid_choices (stdin w) (stdout w).

Fixpoint positive_float_loop (prompt : string)
    (lines : list line) (out : list event) : outcome Q * world :=
  match lines with
  | [] => (Raise EOFError, World [] (out ++ [Prompt prompt]))
  | l :: rest =>
      let out := out ++ [Prompt prompt] in
      match float l with
      | Ret value =>
          if gtb value 0 then (Ret value, World rest out)
          else positive_float_loop prompt rest
                 (out ++ [Print [Lit "Value must be greater than zero."]])
      | Raise ValueError =>
          positive_float_loop prompt rest
            (out ++ [Print [Lit "Enter a valid number."]])
      | Raise e => (Raise e, World rest out)
      end
  end.

Definition positive_float (prompt : string) : IO Q :=
  fun w => positive_float_loop prompt (stdin w) (stdout w).

(** [float(input(prompt))], unguarded (lines 309 and 313). *)
Definition float_input (prompt : string) : IO Q :=
  (l <- input prompt ;; lift (float l))%io.

(** ** Serviceability (lines 276, 326-329 and 348-351) *)

Definition NEGLIGIBLE_DEFLECTION : Q := 0.001.

Inductive verdict : Type :=
| Negligible
| ExceedsLimit
| WithinLimit.

(** The [if]/[elif] chain both load cases run on the deflection in mm. *)
Definition serviceability (actual_deflection LIMIT : Q) : verdict :=
  if ltb actual_deflection NEGLIGIBLE_DEFLECTION then Negligible
  else if gtb actual_deflection LIMIT then ExceedsLimit
  else WithinLimit.

Definition negligible_message : list frag :=
  [Lit (nl ++ "Maximum Deflection is negligible under the given loading conditions.")].

Definition limit_warning : list frag :=
  [Lit (nl ++ "WARNING : Deflection exceeds typical serviceability limits (L/250)."
        ++ nl ++ "Beam may not be suitable for structural use.")].

Definition result_header : list frag :=
  [Lit (nl ++ "----RESULT---" ++ nl)].

Definition result_line (deflection actual_deflection : Q) : list frag :=
  [Lit ("Maximum Deflection :" ++ nl ++ " "); Num 6 deflection;
   Lit (" m" ++ nl ++ " "); Num 3 actual_deflection; Lit " mm"].

Definition invalid_position_message : list frag :=
  [Lit "Invalid Load Position. Load must lie between 0 and Beam Length."].

(** ** The main program (lines 279-364)

    [main] is one function in the source; it is cut here where the kind of
    load has been chosen and at the load-position check, so that the values
    it has read can be named in statements.  The converters return [None]
    on a unit code they do not list; [number] stands for the [TypeError] the
    program would meet on using such a value (the codes come from
    [choice_input], so this does not happen, see [choice_input_valid]). *)

(** Line 306: the allowable deflection in mm, for a span [L] in m. *)
Definition LIMIT (L : Q) : Q := L * 1000 / 250.

(** Line 364, reached by every path that does not [return] early. *)
Definition analysis_complete : IO unit :=
  print [Lit (nl ++ "Analysis Complete.")].

(** Lines 280-304: the beam and the kind of load. *)
Definition main_setup : IO (Q * Z * Q * Q * Z) :=
  (print [Lit "Beam Analysis Tool"] ;;
   print [Lit (nl ++ "NOTE : All calculations are performed in SI units.")] ;;
   print [Lit (nl ++ "---Beam Properties---")] ;;
   L <- positive_float "Enter the length of the beam = " ;;
   Lunits <- choice_input
     "Select your units [1.Metre(m), 2.Millimeters(mm), 3.Centimeter(cm)] = "
     [1; 2; 3]%Z ;;
   L <- number (convert_length L Lunits) ;;
   E <- positive_float "Enter the Young's Modulus of Elasticity = " ;;
   Eunits <- choice_input
     "Select your units [1.Giga Pascal(GPa), 2.Mega Pascal(MPa)] = " [1; 2]%Z ;;
   E <- number (convert_E E Eunits) ;;
   I <- positive_float "Enter the Moment of Inertia = " ;;
   Iunits <- choice_input
     "Select your units [1.Millimeters(mm^4), 2.Meters(m^4)] = " [1; 2]%Z ;;
   I <- number (convert_I I Iunits) ;;
   (if ltb I 1e-10
    then print [Lit "WARNING : Moment of Inertia is extremely small check units."]
    else ret tt) ;;
   print [Lit (nl ++ "---Loading Properties---")] ;;
   option <- choice_input
     (nl ++ "1.Point Load acting on a Simply Supported Beam" ++ nl
      ++ "2.Uniformly Distributed Load on a Simply Supported Beam" ++ nl
      ++ "Select the type of Load = ")
     [1; 2]%Z ;;
   ret (L, Lunits, E, I, option))%io.

(** Lines 309-315. *)
Definition point_load_inputs : IO (Q * Q) :=
  (P <- float_input
     "Enter your Load Magnitude (Use -ve values for upward loading) = " ;;
   Punits <- choice_input
     "Select your units [1.Newtons(N), 2.Kilo Newtons(kN)] = " [1; 2]%Z ;;
   P <- number (convert_load P Punits) ;;
   a <- float_input "Enter your Load Position from Left Hand Supported = " ;;
   aunits <- choice_input
     "Select your units [1.Metre(m), 2.Millimeters(mm), 3.Centimeter(cm)] = "
     [1; 2; 3]%Z ;;
   a <- number (convert_length a aunits) ;;
   ret (P, a))%io.

(** Lines 317-336, then line 364. *)
Definition point_load_analysis (P L E I a : Q) (Lunits : Z) : IO unit :=
  (if negb (ltb 0 a && ltb a L) then
     print invalid_position_message
   else
     deflection <- lift (point_load_ssb P L E I a) ;;
     let actual_deflection := deflection * 1000 in
     '(R1, R2) <- reactions_point_load P L a ;;
     match serviceability actual_deflection (LIMIT L) with
     | Negligible => print negligible_message
     | ExceedsLimit => print limit_warning
     | WithinLimit => ret tt
     end ;;
     print result_header ;;
     print (result_line deflection actual_deflection) ;;
     plot_sfd_point R1 P a L Lunits ;;
     plot_bmd_point R1 P a L Lunits ;;
     plot_point_load_ssb P L E I a Lunits ;;
     analysis_complete)%io.

(** Lines 339-360, then line 364. *)
Definition udl_analysis (L E I : Q) (Lunits : Z) : IO unit :=
  (w <- positive_float "Enter the Load Intensity = " ;;
   wunits <- choice_input
     "Select your units [1.Newton per Metre(N/m), 2.Kilo Newton per Metre(kN/m)] = "
     [1; 2]%Z ;;
   w <- number (convert_udl w wunits) ;;
   deflection <- lift (udl_ssb w L E I) ;;
   let actual_deflection := deflection * 1000 in
   '(R1, R2) <- reactions_udl w L ;;
   match serviceability actual_deflection (LIMIT L) with
   | Negligible => print negligible_message
   | ExceedsLimit =>
       print limit_warning ;;
       print result_header ;;
       print (result_line deflection actual_deflection)
   | WithinLimit => ret tt
   end ;;
   print result_header ;;
   print (result_line deflection actual_deflection) ;;
   plot_sfd_udl w L Lunits ;;
   plot_bmd_udl w L Lunits ;;
   plot_udl_ssb w L E I Lunits ;;
   analysis_complete)%io.

Definition main : IO unit :=
  ('(L, Lunits, E, I0, option) <- main_setup ;;
   let I := I0 in
   if (option =? 1)%Z then
     '(P, a) <- point_load_inputs ;;
     point_load_analysis P L E I a Lunits
   else if (option =? 2)%Z then
     udl_analysis L E I Lunits
   else
     print [Lit "Invalid Selection. Please Restart the Programme."] ;;
     analysis_complete)%io.

(** A run of the program on the given input lines. *)
Definition run (lines : list line) : outcome unit * world :=
  main (World lines []).

(** ** Vocabulary of the statements *)

(** [returns o r]: the converter returned a number, equal to [r]. *)
Definition returns (o : option Q) (r : Q) : Prop :=
  match o with
  | Some v => v == r
  | None => False
  end.

(** The figure [plot_sfd_point] shows. *)
Definition sfd_point_figure (R1 P a L : Q) (x_plot : list Q) (label : string)
  : figure :=
  Figure "Shear Force Diagram — Point Load"
         ("Beam Length (" ++ label ++ ")")
         "Shear Force (N)"
         x_plot (shear_point R1 P a (Np.linspace 0 L 400)) None.

(** What the serviceability check prints in the point-load case. *)
Definition verdict_events (v : verdict) : list event :=
  match v with
  | Negligible => [Print negligible_message]
  | ExceedsLimit => [Print limit_warning]
  | WithinLimit => []
  end.

(** The text written while the inputs are read: the banner, the section
    headers, the inertia warning and the retry messages. *)
Definition input_messages : list string :=
  [ "Beam Analysis Tool";
    nl ++ "NOTE : All calculations are performed in SI units.";
    nl ++ "---Beam Properties---";
    nl ++ "---Loading Properties---";
    "WARNING : Moment of Inertia is extremely small check units.";
    "Invalid choice. Try again.";
    "Enter a valid number.";
    "Value must be greater than zero." ]%string.

(** An event of the input phase: a prompt or one of [input_messages].  No
    reaction, no deflection result and no figure is such an event. *)
Definition input_event (e : event) : bool :=
  match e with
  | Prompt _ => true
  | Print [Lit s] => existsb (String.eqb s) input_messages
  | _ => false
  end.

(** [quiet m]: whatever [m] writes is written after what was there, and
    consists of input events only. *)
Definition quiet {A} (m : IO A) : Prop :=
  forall c : world,
    exists evs, stdout (snd (m c)) = stdout c ++ evs
                /\ forallb input_event evs = true.

(** [emits evs c]: the console [c] after the events [evs] were written. *)
Definition emits (evs : list event) (c : world) : world :=
  World (stdin c) (stdout c ++ evs).

(** [outputs m a evs]: on every console, [m] reads nothing, writes [evs]
    and returns [a]. *)
Definition outputs {A} (m : IO A) (a : A) (evs : list event) : Prop :=
  forall c : world, m c = (Ret a, emits evs c).

(** A beam of 4 m, a load of -10000 N placed at 5 m. *)
Definition script_position_outside : list line :=
  [FloatLit 4; IntLit 1; IntLit 200; IntLit 1; FloatLit 8e-6; IntLit 2;
   IntLit 1; IntLit (-10000); IntLit 1; IntLit 5; IntLit 1].

(** A beam of 4 m, steel, I = 8e-6 m^4, an upward load of 10000 N at
    midspan. *)
Definition script_upward_load : list line :=
  [FloatLit 4; IntLit 1; IntLit 200; IntLit 1; FloatLit 8e-6; IntLit 2;
   IntLit 1; IntLit (-10000); IntLit 1; IntLit 2; IntLit 1].

(** ** Vocabulary of the further properties *)

(** A line [choice_input] rejects, and what it prints before asking again. *)
Definition choice_rejected (valid_choices : list Z) (l : line) : bool :=
  match l with
  | IntLit z => negb (existsb (Z.eqb z) valid_choices)
  | _ => true
  end.

Definition choice_retry (prompt : string) (l : line) : list event :=
  match l with
  | IntLit _ => [Prompt prompt; Print [Lit "Invalid choice. Try again."]]
  | _ => [Prompt prompt; Print [Lit "Enter a valid number."]]
  end.

(** A line [positive_float] rejects, and what it prints before asking
    again. *)
Definition positive_rejected (l : line) : bool :=
  match float l with
  | Ret value => negb (gtb value 0)
  | Raise _ => true
  end.

Definition positive_retry (prompt : string) (l : line) : list event :=
  match float l with
  | Ret _ => [Prompt prompt; Print [Lit "Value must be greater than zero."]]
  | Raise _ => [Prompt prompt; Print [Lit "Enter a valid number."]]
  end.

(** The message of the branch of [main] for a load type that is neither 1
    nor 2 (line 363), and the events that are not that message. *)
Definition selection_error : event :=
  Print [Lit "Invalid Selection. Please Restart the Programme."].

Definition selection_error_free (e : event) : bool :=
  match e with
  | Print [Lit s] =>
      negb (String.eqb s "Invalid Selection. Please Restart the Programme.")
  | _ => true
  end.

(** The exceptions that come from the input: its end, or a line that is
    not a number where [main] reads one unguarded. *)
Definition input_failure (e : exn) : Prop := e = EOFError \/ e = ValueError.

(** [behaves m Q]: on every console, [m] appends to the output events that
    are not the selection error, and either returns a value satisfying [Q]
    or raises an input failure. *)
Definition behaves {A} (m : IO A) (Q : A -> Prop) : Prop :=
  forall c : world,
    (exists evs, stdout (snd (m c)) = stdout c ++ evs
                 /\ forallb selection_error_free evs = true)
    /\ match fst (m c) with
       | Ret a => Q a
       | Raise e => input_failure e
       end.

(** What [main_setup] guarantees of the values it returns. *)
Definition setup_ok (r : Q * Z * Q * Q * Z) : Prop :=
  let '(L, Lunits, E, I0, option) := r in
  0 < L /\ In Lunits [1; 2; 3]%Z /\ 0 < E /\ 0 < I0 /\ In option [1; 2]%Z.

(** What the serviceability check prints in the UDL case: there the
    branch of the warning prints the result as well (lines 350-353). *)
Definition verdict_events_udl (v : verdict) (deflection actual_deflection : Q)
  : list event :=
  match v with
  | Negligible => [Print negligible_message]
  | ExceedsLimit =>
      [Print limit_warning; Print result_header;
       Print (result_line deflection actual_deflection)]
  | WithinLimit => []
  end.

(** The prompts of the UDL case (lines 339-340). *)
Definition intensity_prompt : string := "Enter the Load Intensity = ".

Definition intensity_units_prompt : string :=
  "Select your units [1.Newton per Metre(N/m), 2.Kilo Newton per Metre(kN/m)] = ".


(** * Properties *)

(** ** Comparisons, division and arrays *)

Lemma ltb_true (x y : Q) : ltb x y = true <-> x < y.
Proof.
  unfold ltb. rewrite negb_true_iff.
  destruct (Qle_bool y x) eqn:Hle.
  - apply Qle_bool_iff in Hle. split; [discriminate | intros Hlt].
    exfalso. exact (Qlt_not_le _ _ Hlt Hle).
  - split; [intros _ | reflexivity].
    apply Qnot_le_lt. intros Hc. apply Qle_bool_iff in Hc. congruence.
Qed.

Lemma ltb_false (x y : Q) : ltb x y = false <-> y <= x.
Proof.
  unfold ltb. rewrite negb_false_iff. apply Qle_bool_iff.
Qed.

Lemma geb_true (x y : Q) : geb x y = true <-> y <= x.
Proof. unfold geb. apply Qle_bool_iff. Qed.

Lemma geb_ltb (x y : Q) : geb x y = negb (ltb x y).
Proof. unfold geb, ltb. now rewrite negb_involutive. Qed.

Lemma truediv_defined (x y : Q) : ~ y == 0 -> truediv x y = Ret (x / y).
Proof.
  intros Hy. unfold truediv.
  destruct (Qeq_bool y 0) eqn:Heq; [| reflexivity].
  apply Qeq_bool_iff in Heq. contradiction.
Qed.

Lemma nth_map_in {A B} (f : A -> B) (l : list A) (d : A) (d' : B) (i : nat) :
  (i < length l)%nat -> nth i (map f l) d' = f (nth i l d).
Proof.
  intros Hi. rewrite (nth_indep _ d' (f d)) by now rewrite length_map.
  apply map_nth.
Qed.

Lemma where_length (c : list bool) (u v : list Q) :
  length u = length c -> length v = length c ->
  length (Np.where_ c u v) = length c.
Proof.
  revert u v. induction c as [|b c IH]; intros [|ui u] [|vi v]; simpl;
    try discriminate; try reflexivity.
  intros Hu Hv. f_equal. apply IH; congruence.
Qed.

Lemma where_nth (c : list bool) (u v : list Q) (i : nat) :
  length u = length c -> length v = length c -> (i < length c)%nat ->
  nth i (Np.where_ c u v) 0
  = if nth i c false then nth i u 0 else nth i v 0.
Proof.
  revert u v i. induction c as [|b c IH]; intros [|ui u] [|vi v] i; simpl;
    try discriminate; try lia.
  intros Hu Hv Hi. destruct i as [|i]; [reflexivity |].
  apply IH; try congruence; lia.
Qed.

(** Assigning through a mask the image of the selected elements touches
    exactly the masked positions. *)
Lemma assign_select (f : Q -> Q) (x y : list Q) (mask : list bool) :
  length y = length x -> length mask = length x ->
  forall i, (i < length x)%nat ->
    nth i (Np.assign y mask (map f (Np.select mask x))) 0
    = if nth i mask false then f (nth i x 0) else nth i y 0.
Proof.
  revert y mask. induction x as [|xi x IH]; intros [|yi y] [|m mask]; simpl;
    try discriminate; try (intros; lia).
  intros Hy Hm i Hi. destruct m; simpl.
  - destruct i as [|i]; [reflexivity |]. apply IH; try congruence; lia.
  - destruct i as [|i]; [reflexivity |]. apply IH; try congruence; lia.
Qed.

Lemma assign_length (y : list Q) (mask : list bool) (vals : list Q) :
  length (Np.assign y mask vals) = length y.
Proof.
  revert mask vals. induction y as [|yi y IH]; intros [|m mask] vals; simpl;
    try reflexivity.
  destruct m; [destruct vals |]; simpl; now rewrite IH.
Qed.

(** ** C1: the reactions balance the load *)

Section Reactions.

Variables P w L a : Q.
Variable c : world.
Hypothesis span : 0 < L.

Lemma reactions_point_load_value :
  fst (reactions_point_load P L a c) = Ret (P * (L - a) / L, P * a / L).
Proof.
  assert (HL : ~ L == 0) by lra.
  unfold reactions_point_load, bind, lift.
  rewrite !truediv_defined by exact HL. reflexivity.
Qed.

Lemma reactions_udl_value :
  fst (reactions_udl w L c) = Ret (w * L / 2, w * L / 2).
Proof. reflexivity. Qed.

(** C1. For a span [L > 0] and any load position [a] (in particular
    [0 < a < L]), [reactions_point_load] returns a pair [(R1, R2)] with
    [R1 + R2 == P], and [reactions_udl] returns a pair with
    [R1 + R2 == w * L]. *)
Theorem reactions_balance_load :
  (exists R1 R2, fst (reactions_point_load P L a c) = Ret (R1, R2)
                 /\ R1 + R2 == P)
  /\ (exists R1 R2, fst (reactions_udl w L c) = Ret (R1, R2)
                    /\ R1 + R2 == w * L).
Proof.
  assert (HL : ~ L == 0) by lra.
  split.
  - exists (P * (L - a) / L), (P * a / L). split.
    + apply reactions_point_load_value.
    + field. exact HL.
  - exists (w * L / 2), (w * L / 2). split.
    + apply reactions_udl_value.
    + field.
Qed.

End Reactions.

Lemma reactions_balance_load_witness :
  0 < 4
  /\ (exists R1 R2,
        fst (reactions_point_load 10000 4 2 (World [] [])) = Ret (R1, R2)
        /\ R1 + R2 == 10000)
  /\ (exists R1 R2,
        fst (reactions_udl 5000 4 (World [] [])) = Ret (R1, R2)
        /\ R1 + R2 == 5000 * 4).
Proof.
  split.
  - reflexivity.
  - apply (reactions_balance_load 10000 5000 4 2 (World [] [])).
    reflexivity.
Defined.

(** ** C8: unit conversion factors *)

(** C8. Each converter applies the factor of its unit code: lengths are
    divided by 1, 1000, 100 (m, mm, cm); moduli multiplied by 1e9, 1e6
    (GPa, MPa); inertias multiplied by 1e-12, 1 (mm^4, m^4); point and
    distributed loads multiplied by 1, 1000 (N, kN and N/m, kN/m). *)
Theorem converters_apply_factors (value : Q) :
  (returns (convert_length value 1) (value / 1)
   /\ returns (convert_length value 2) (value / 1000)
   /\ returns (convert_length value 3) (value / 100))
  /\ (returns (convert_E value 1) (value * 1e9)
      /\ returns (convert_E value 2) (value * 1e6))
  /\ (returns (convert_I value 1) (value * 1e-12)
      /\ returns (convert_I value 2) (value * 1))
  /\ (returns (convert_load value 1) (value * 1)
      /\ returns (convert_load value 2) (value * 1000))
  /\ (returns (convert_udl value 1) (value * 1)
      /\ returns (convert_udl value 2) (value * 1000)).
Proof.
  unfold returns, convert_length, convert_E, convert_I, convert_load,
    convert_udl.
  cbn [Z.eqb Pos.eqb].
  repeat split; try reflexivity; field.
Qed.

(** ** C6 and C10: the bending moment *)

Lemma lt_nth (x : list Q) (a : Q) (i : nat) :
  (i < length x)%nat -> nth i (Np.lt x a) false = ltb (nth i x 0) a.
Proof. intros Hi. exact (nth_map_in (fun xi => ltb xi a) x 0 false i Hi). Qed.

Lemma ge_nth (x : list Q) (a : Q) (i : nat) :
  (i < length x)%nat -> nth i (Np.ge x a) false = geb (nth i x 0) a.
Proof. intros Hi. exact (nth_map_in (fun xi => geb xi a) x 0 false i Hi). Qed.

Lemma moment_point_nth (R1 P a : Q) (x : list Q) (i : nat) :
  (i < length x)%nat ->
  nth i (moment_point R1 P a x) 0
  = if ltb (nth i x 0) a then R1 * nth i x 0
    else R1 * nth i x 0 - P * (nth i x 0 - a).
Proof.
  intros Hi. unfold moment_point, moment_point_left, moment_point_right.
  rewrite where_nth; unfold Np.lt; rewrite ?length_map; try reflexivity;
    try exact Hi.
  rewrite !(nth_map_in _ x 0) by exact Hi. reflexivity.
Qed.

(** C6. Wherever a sample position equals the load position [a], the left
    branch [R1 * x] and the right branch [R1 * x - P * (x - a)] of the
    point-load moment agree (both are [R1 * a], and so is the diagram): the
    moment has no jump at the load. *)
Theorem moment_continuous_at_load (R1 P a : Q) (x : list Q) (i : nat) :
  (i < length x)%nat ->
  nth i x 0 == a ->
  nth i (moment_point_left R1 x) 0 == nth i (moment_point_right R1 P a x) 0
  /\ nth i (moment_point R1 P a x) 0 == R1 * a.
Proof.
  intros Hi Hx. split.
  - unfold moment_point_left, moment_point_right.
    rewrite !(nth_map_in _ x 0) by exact Hi.
    rewrite Hx. ring.
  - rewrite moment_point_nth by exact Hi.
    destruct (ltb (nth i x 0) a); rewrite Hx; ring.
Qed.

Lemma moment_continuous_at_load_witness :
  ((1 < length [0; 2; 4])%nat /\ nth 1 [0; 2; 4] 0 == 2)
  /\ (nth 1 (moment_point_left 5000 [0; 2; 4]) 0
      == nth 1 (moment_point_right 5000 10000 2 [0; 2; 4]) 0
      /\ nth 1 (moment_point 5000 10000 2 [0; 2; 4]) 0 == 5000 * 2).
Proof.
  split.
  - split; [simpl; lia | reflexivity].
  - apply (moment_continuous_at_load 5000 10000 2 [0; 2; 4] 1).
    + simpl; lia.
    + reflexivity.
Defined.

(** The shear, by contrast, jumps by [P] there: its two branches differ as
    soon as the load is not zero. *)
Lemma shear_jump_at_load (R1 P : Q) : ~ P == 0 -> ~ R1 == R1 - P.
Proof. intros HP Heq. apply HP. lra. Qed.

Lemma moment_udl_nth (w L : Q) (x : list Q) (i : nat) :
  (i < length x)%nat ->
  nth i (moment_udl w L x) 0
  = (w * L / 2) * nth i x 0 - (w * (nth i x 0)^2) / 2.
Proof. intros Hi. unfold moment_udl. now rewrite (nth_map_in _ x 0). Qed.

(** C10. With the left reaction [R1] returned by [reactions_point_load]
    ([P * (L - a) / L]), the point-load moment diagram is zero at a sample
    at [0] and at a sample at [L]; so is the UDL moment diagram. *)
Theorem moment_zero_at_supports (P w L a : Q) (c : world) (R1 R2 : Q)
    (x : list Q) (i : nat) :
  0 < L -> 0 < a /\ a < L ->
  fst (reactions_point_load P L a c) = Ret (R1, R2) ->
  (i < length x)%nat ->
  nth i x 0 == 0 \/ nth i x 0 == L ->
  nth i (moment_point R1 P a x) 0 == 0
  /\ nth i (moment_udl w L x) 0 == 0.
Proof.
  intros HL [Ha0 HaL] HR Hi Hx.
  rewrite reactions_point_load_value in HR by exact HL.
  injection HR as HR1 _. subst R1.
  assert (HL0 : ~ L == 0) by lra.
  rewrite moment_point_nth, moment_udl_nth by exact Hi.
  destruct Hx as [Hx | Hx].
  - destruct (ltb (nth i x 0) a) eqn:Hlt.
    + rewrite Hx. split; field; exact HL0.
    + apply ltb_false in Hlt. rewrite Hx in Hlt. lra.
  - destruct (ltb (nth i x 0) a) eqn:Hlt.
    + apply ltb_true in Hlt. rewrite Hx in Hlt. lra.
    + rewrite Hx. split; field; exact HL0.
Qed.

Lemma moment_zero_at_supports_witness :
  (0 < 4 /\ (0 < 1 /\ 1 < 4)
   /\ fst (reactions_point_load 8 4 1 (World [] [])) = Ret (8 * (4 - 1) / 4, 8 * 1 / 4)
   /\ (2 < length [0; 1; 4])%nat
   /\ (nth 2 [0; 1; 4] 0 == 0 \/ nth 2 [0; 1; 4] 0 == 4))
  /\ (nth 2 (moment_point (8 * (4 - 1) / 4) 8 1 [0; 1; 4]) 0 == 0
      /\ nth 2 (moment_udl 3 4 [0; 1; 4]) 0 == 0).
Proof.
  split.
  - repeat split; try reflexivity; try (simpl; lia). right; reflexivity.
  - apply (moment_zero_at_supports 8 3 4 1 (World [] []) _ (8 * 1 / 4)
             [0; 1; 4] 2).
    + reflexivity.
    + split; reflexivity.
    + reflexivity.
    + simpl; lia.
    + right; reflexivity.
Defined.

(** ** C7 and C2: the deflection curves *)

Lemma deflection_udl_nth (w L E I : Q) (x : list Q) (i : nat) :
  (i < length x)%nat ->
  nth i (deflection_udl w L E I x) 0
  = (w * nth i x 0 * (L^3 - 2 * L * (nth i x 0)^2 + (nth i x 0)^3))
    / (24 * E * I).
Proof. intros Hi. unfold deflection_udl. now rewrite (nth_map_in _ x 0). Qed.

(** The two masked assignments of lines 112-116, sample by sample. *)
Lemma deflection_point_load_nth (P L E I a : Q) (x : list Q) (i : nat) :
  (i < length x)%nat ->
  nth i (deflection_point_load P L E I a x) 0
  = if ltb (nth i x 0) a
    then (P * (L - a) * nth i x 0 / (6 * L * E * I))
         * (L^2 - (L - a)^2 - (nth i x 0)^2)
    else (P * a * (L - nth i x 0) / (6 * L * E * I))
         * (L^2 - a^2 - (L - nth i x 0)^2).
Proof.
  intros Hi. unfold deflection_point_load.
  rewrite assign_select;
    rewrite ?assign_length; unfold Np.zeros_like, Np.ge, Np.lt;
    rewrite ?length_map; try reflexivity; try exact Hi.
  fold (Np.ge x a). rewrite ge_nth by exact Hi. rewrite geb_ltb.
  destruct (ltb (nth i x 0) a) eqn:Hlt; simpl; [| reflexivity].
  fold (Np.lt x a). fold (Np.zeros_like x).
  rewrite assign_select; unfold Np.zeros_like, Np.lt;
    rewrite ?length_map; try reflexivity; try exact Hi.
  fold (Np.lt x a). rewrite lt_nth by exact Hi. now rewrite Hlt.
Qed.

(** C7. For [E, I > 0], the UDL deflection curve takes equal values at any
    two sample positions that mirror each other about midspan
    ([x_j == L - x_i]): [y(x) == y(L - x)]. *)
Theorem deflection_udl_symmetric (w L E I : Q) (x : list Q) (i j : nat) :
  0 < E -> 0 < I ->
  (i < length x)%nat -> (j < length x)%nat ->
  nth j x 0 == L - nth i x 0 ->
  nth j (deflection_udl w L E I x) 0 == nth i (deflection_udl w L E I x) 0.
Proof.
  intros HE HI Hi Hj Hmirror.
  rewrite !deflection_udl_nth by assumption.
  rewrite Hmirror. field. split; lra.
Qed.

Lemma deflection_udl_symmetric_witness :
  (0 < 2 /\ 0 < 3 /\ (0 < length [1; 5])%nat /\ (1 < length [1; 5])%nat
   /\ nth 1 [1; 5] 0 == 6 - nth 0 [1; 5] 0)
  /\ nth 1 (deflection_udl 7 6 2 3 [1; 5]) 0
     == nth 0 (deflection_udl 7 6 2 3 [1; 5]) 0.
Proof.
  split.
  - repeat split; try reflexivity; simpl; lia.
  - apply (deflection_udl_symmetric 7 6 2 3 [1; 5] 0 1).
    + reflexivity.
    + reflexivity.
    + simpl; lia.
    + simpl; lia.
    + reflexivity.
Defined.

(** C2. For [L, E, I > 0], [point_load_ssb] returns a number that equals
    the point-load deflection curve at every sample position equal to [a],
    and [udl_ssb] returns a number that equals the UDL deflection curve at
    every sample position equal to [L / 2]. *)
Theorem scalar_deflection_on_curve (P w L E I a : Q) :
  0 < L -> 0 < E -> 0 < I ->
  (exists delta,
     point_load_ssb P L E I a = Ret delta
     /\ forall (x : list Q) (i : nat),
          (i < length x)%nat -> nth i x 0 == a ->
          nth i (deflection_point_load P L E I a x) 0 == delta)
  /\ (exists delta,
        udl_ssb w L E I = Ret delta
        /\ forall (x : list Q) (i : nat),
             (i < length x)%nat -> nth i x 0 == L / 2 ->
             nth i (deflection_udl w L E I x) 0 == delta).
Proof.
  intros HL HE HI.
  assert (HLn : ~ L == 0) by lra.
  assert (HEn : ~ E == 0) by lra.
  assert (HIn : ~ I == 0) by lra.
  assert (HEI : 0 < E * I) by (apply Qmult_lt_0_compat; assumption).
  assert (HEIL : 0 < E * I * L) by (apply Qmult_lt_0_compat; assumption).
  split.
  - eexists. split.
    + unfold point_load_ssb. apply truediv_defined. lra.
    + intros x i Hi Hx. rewrite deflection_point_load_nth by exact Hi.
      destruct (ltb (nth i x 0) a) eqn:Hlt.
      * apply ltb_true in Hlt. rewrite Hx in Hlt. lra.
      * rewrite Hx. field. repeat split; assumption.
  - eexists. split.
    + unfold udl_ssb. apply truediv_defined. lra.
    + intros x i Hi Hx. rewrite deflection_udl_nth by exact Hi.
      rewrite Hx. field. split; assumption.
Qed.

Lemma scalar_deflection_on_curve_witness :
  (0 < 4 /\ 0 < 2 /\ 0 < 3)
  /\ (exists delta,
        point_load_ssb 10 4 2 3 1 = Ret delta
        /\ forall (x : list Q) (i : nat),
             (i < length x)%nat -> nth i x 0 == 1 ->
             nth i (deflection_point_load 10 4 2 3 1 x) 0 == delta)
  /\ (exists delta,
        udl_ssb 5 4 2 3 = Ret delta
        /\ forall (x : list Q) (i : nat),
             (i < length x)%nat -> nth i x 0 == 4 / 2 ->
             nth i (deflection_udl 5 4 2 3 x) 0 == delta).
Proof.
  split.
  - repeat split; reflexivity.
  - apply (scalar_deflection_on_curve 10 5 4 2 3 1); reflexivity.
Defined.

(** ** C5: sampling and the point-load shear diagram *)

Section Linspace.

Variables start stop : Q.
Variable m : nat.
Hypothesis intervals : (0 < m)%nat.

Lemma linspace_unfold :
  Np.linspace start stop (S m)
  = map (fun i => inject_Z (Z.of_nat i)
                   * ((stop - start) / inject_Z (Z.of_nat m)) + start)
        (seq 0 m)
    ++ [stop].
Proof.
  unfold Np.linspace.
  replace (1 <? S m)%nat with true by (symmetry; apply Nat.ltb_lt; lia).
  replace (S m - 1)%nat with m by lia.
  rewrite seq_S, map_app. simpl map at 2. now rewrite removelast_last.
Qed.

Lemma linspace_length : length (Np.linspace start stop (S m)) = S m.
Proof.
  rewrite linspace_unfold, length_app, length_map, length_seq. simpl. lia.
Qed.

Lemma linspace_nth_inner (i : nat) :
  (i < m)%nat ->
  nth i (Np.linspace start stop (S m)) 0
  = inject_Z (Z.of_nat i) * ((stop - start) / inject_Z (Z.of_nat m)) + start.
Proof.
  intros Hi. rewrite linspace_unfold.
  rewrite app_nth1 by now rewrite length_map, length_seq.
  rewrite (nth_map_in _ _ 0%nat) by now rewrite length_seq.
  now rewrite seq_nth.
Qed.

Lemma linspace_nth_last : nth m (Np.linspace start stop (S m)) 0 = stop.
Proof.
  rewrite linspace_unfold.
  rewrite app_nth2; rewrite length_map, length_seq; [| lia].
  now rewrite Nat.sub_diag.
Qed.

(** Sample [i] lies [i] steps from [start]. *)
Lemma linspace_nth (i : nat) :
  (i <= m)%nat ->
  nth i (Np.linspace start stop (S m)) 0
  == start + inject_Z (Z.of_nat i) * ((stop - start) / inject_Z (Z.of_nat m)).
Proof.
  intros Hi.
  assert (Hm : ~ inject_Z (Z.of_nat m) == 0).
  { intros H. unfold Qeq in H. simpl in H. lia. }
  destruct (Nat.eq_dec i m) as [-> | Hne].
  - rewrite linspace_nth_last. field. exact Hm.
  - rewrite linspace_nth_inner by lia. ring.
Qed.

End Linspace.

Lemma shear_point_length (R1 P a : Q) (x : list Q) :
  length (shear_point R1 P a x) = length x.
Proof.
  unfold shear_point, Np.full_like, Np.lt.
  rewrite where_length; now rewrite !length_map.
Qed.

Lemma shear_point_nth (R1 P a : Q) (x : list Q) (i : nat) :
  (i < length x)%nat ->
  nth i (shear_point R1 P a x) 0
  = if ltb (nth i x 0) a then R1 else R1 - P.
Proof.
  intros Hi. unfold shear_point, Np.full_like.
  rewrite where_nth; unfold Np.lt; rewrite ?length_map; try reflexivity;
    try exact Hi.
  fold (Np.lt x a). rewrite lt_nth by exact Hi.
  rewrite !(nth_map_in (fun _ : Q => _) x 0) by exact Hi. reflexivity.
Qed.

(** C5. The point-load shear diagram is computed on 400 sample positions,
    the first [0], the last [L], sample [i] at [i * (L / 399)]; the shear at
    a sample [x] is [R1] when [x < a] and [R1 - P] when [x >= a]; and
    [plot_sfd_point] shows, whatever the state of the console, the figure
    determined by its arguments. *)
Theorem shear_diagram_samples (R1 P a L : Q) :
  let x := Np.linspace 0 L 400 in
  let V := shear_point R1 P a x in
  (length x = 400%nat /\ length V = 400%nat)
  /\ (nth 0 x 0 == 0 /\ nth 399 x 0 == L)
  /\ (forall i, (i < 400)%nat ->
        nth i x 0 == inject_Z (Z.of_nat i) * (L / 399))
  /\ (forall i, (i < 400)%nat ->
        (nth i x 0 < a -> nth i V 0 = R1)
        /\ (a <= nth i x 0 -> nth i V 0 = R1 - P))
  /\ (forall (Lunits : Z) (x_plot : list Q) (label : string),
        axis_length x Lunits = Some (x_plot, label) ->
        forall c : world,
          plot_sfd_point R1 P a L Lunits c
          = (Ret tt, emit (Show (sfd_point_figure R1 P a L x_plot label)) c)).
Proof.
  intros x V.
  assert (Hlen : length x = 400%nat).
  { unfold x. change 400%nat with (S 399). apply linspace_length. lia. }
  assert (Hnth : forall i, (i < 400)%nat ->
            nth i x 0 == inject_Z (Z.of_nat i) * (L / 399)).
  { intros i Hi. unfold x. change 400%nat with (S 399).
    rewrite linspace_nth by lia.
    change (inject_Z (Z.of_nat 399)) with 399. field. }
  split; [| split; [| split; [| split]]].
  - split; [exact Hlen |]. unfold V. now rewrite shear_point_length.
  - split.
    + rewrite (Hnth 0%nat) by lia. change (inject_Z (Z.of_nat 0)) with 0. ring.
    + unfold x. change 400%nat with (S 399). now rewrite linspace_nth_last by lia.
  - exact Hnth.
  - intros i Hi. unfold V. rewrite shear_point_nth by lia. split; intros Hx.
    + apply ltb_true in Hx. now rewrite Hx.
    + apply ltb_false in Hx. now rewrite Hx.
  - intros Lunits x_plot label Haxis c.
    unfold plot_sfd_point, bind. fold x. rewrite Haxis. reflexivity.
Qed.

Lemma shear_diagram_samples_witness :
  ((100 < 400)%nat /\ nth 100 (Np.linspace 0 4 400) 0 < 2
   /\ (300 < 400)%nat /\ 2 <= nth 300 (Np.linspace 0 4 400) 0)
  /\ nth 100 (shear_point 5000 10000 2 (Np.linspace 0 4 400)) 0 = 5000
  /\ nth 300 (shear_point 5000 10000 2 (Np.linspace 0 4 400)) 0
     = 5000 - 10000.
Proof.
  split.
  - split; [lia | split; [vm_compute; reflexivity | split; [lia |]]].
    vm_compute. discriminate.
  - destruct (shear_diagram_samples 5000 10000 2 4)
      as [_ [_ [_ [Hshear _]]]].
    split.
    + apply (Hshear 100%nat); [lia | vm_compute; reflexivity].
    + apply (Hshear 300%nat); [lia | vm_compute; discriminate].
Defined.

(** ** Reading the inputs *)

(** A choice that is returned is one of the valid choices. *)
Lemma choice_input_loop_valid (prompt : string) (valid_choices : list Z)
    (lines : list line) (out : list event) (v : Z) :
  fst (choice_input_loop prompt valid_choices lines out) = Ret v ->
  In v valid_choices.
Proof.
  revert out. induction lines as [|l rest IH]; intros out; simpl.
  - discriminate.
  - destruct (int l) as [value | e].
    + destruct (existsb (Z.eqb value) valid_choices) eqn:Hin.
      * simpl. intros [= <-]. apply existsb_exists in Hin.
        destruct Hin as [z [Hz Heq]]. apply Z.eqb_eq in Heq. now subst.
      * apply IH.
    + destruct e; try discriminate. apply IH.
Qed.

Lemma choice_input_valid (prompt : string) (valid_choices : list Z)
    (c : world) (v : Z) :
  fst (choice_input prompt valid_choices c) = Ret v -> In v valid_choices.
Proof. apply choice_input_loop_valid. Qed.

(** A value that is returned is positive. *)
Lemma positive_float_loop_positive (prompt : string) (lines : list line)
    (out : list event) (v : Q) :
  fst (positive_float_loop prompt lines out) = Ret v -> 0 < v.
Proof.
  revert out. induction lines as [|l rest IH]; intros out; simpl.
  - discriminate.
  - destruct (float l) as [value | e].
    + destruct (gtb value 0) eqn:Hpos.
      * simpl. intros [= <-]. now apply ltb_true in Hpos.
      * apply IH.
    + destruct e; try discriminate. apply IH.
Qed.

Lemma quiet_ret {A} (a : A) : quiet (ret a).
Proof. intros c. exists []. now rewrite app_nil_r. Qed.

Lemma quiet_raise {A} (e : exn) : quiet (@raise A e).
Proof. intros c. exists []. now rewrite app_nil_r. Qed.

Lemma quiet_lift {A} (o : outcome A) : quiet (lift o).
Proof. intros c. exists []. now rewrite app_nil_r. Qed.

Lemma quiet_number {A} (o : option A) : quiet (number o).
Proof. destruct o; [apply quiet_ret | apply quiet_raise]. Qed.

Lemma quiet_bind {A B} (m : IO A) (k : A -> IO B) :
  quiet m -> (forall a, quiet (k a)) -> quiet (bind m k).
Proof.
  intros Hm Hk c. unfold bind.
  destruct (Hm c) as [evs [Hout Hevs]].
  destruct (m c) as [[a | e] c1]; simpl in Hout.
  - destruct (Hk a c1) as [evs' [Hout' Hevs']].
    exists (evs ++ evs'). split.
    + now rewrite Hout', Hout, app_assoc.
    + now rewrite forallb_app, Hevs, Hevs'.
  - exists evs. now split.
Qed.

Lemma quiet_print (s : string) :
  existsb (String.eqb s) input_messages = true -> quiet (print [Lit s]).
Proof.
  intros Hs c. exists [Print [Lit s]]. split; [reflexivity |].
  change (existsb (String.eqb s) input_messages && true = true).
  now rewrite Hs.
Qed.

Lemma quiet_input (prompt : string) : quiet (input prompt).
Proof.
  intros c. exists [Prompt prompt]. unfold input.
  destruct (stdin c); now split.
Qed.

Lemma quiet_float_input (prompt : string) : quiet (float_input prompt).
Proof.
  apply quiet_bind; [apply quiet_input | intros l; apply quiet_lift].
Qed.

Lemma quiet_choice_input (prompt : string) (valid_choices : list Z) :
  quiet (choice_input prompt valid_choices).
Proof.
  intros [lines out]. unfold choice_input. simpl stdin. simpl stdout.
  revert out. induction lines as [|l rest IH]; intros out; simpl.
  - exists [Prompt prompt]. now split.
  - destruct (int l) as [value | e].
    + destruct (existsb (Z.eqb value) valid_choices).
      * exists [Prompt prompt]. now split.
      * destruct (IH ((out ++ [Prompt prompt])
                      ++ [Print [Lit "Invalid choice. Try again."]]))
          as [evs [Hout Hevs]].
        exists (Prompt prompt :: Print [Lit "Invalid choice. Try again."] :: evs).
        split; [| exact Hevs].
        rewrite Hout, <- !app_assoc. reflexivity.
    + destruct e; try (exists [Prompt prompt]; now split).
      destruct (IH ((out ++ [Prompt prompt])
                    ++ [Print [Lit "Enter a valid number."]]))
        as [evs [Hout Hevs]].
      exists (Prompt prompt :: Print [Lit "Enter a valid number."] :: evs).
      split; [| exact Hevs].
      rewrite Hout, <- !app_assoc. reflexivity.
Qed.

Lemma quiet_positive_float (prompt : string) : quiet (positive_float prompt).
Proof.
  intros [lines out]. unfold positive_float. simpl stdin. simpl stdout.
  revert out. induction lines as [|l rest IH]; intros out; simpl.
  - exists [Prompt prompt]. now split.
  - destruct (float l) as [value | e].
    + destruct (gtb value 0).
      * exists [Prompt prompt]. now split.
      * destruct (IH ((out ++ [Prompt prompt])
                      ++ [Print [Lit "Value must be greater than zero."]]))
          as [evs [Hout Hevs]].
        exists (Prompt prompt
                  :: Print [Lit "Value must be greater than zero."] :: evs).
        split; [| exact Hevs].
        rewrite Hout, <- !app_assoc. reflexivity.
    + destruct e; try (exists [Prompt prompt]; now split).
      destruct (IH ((out ++ [Prompt prompt])
                    ++ [Print [Lit "Enter a valid number."]]))
        as [evs [Hout Hevs]].
      exists (Prompt prompt :: Print [Lit "Enter a valid number."] :: evs).
      split; [| exact Hevs].
      rewrite Hout, <- !app_assoc. reflexivity.
Qed.

Create HintDb quiet.
#[local] Hint Resolve quiet_ret quiet_raise quiet_lift quiet_number
  quiet_input quiet_float_input quiet_choice_input quiet_positive_float
  : quiet.

Ltac quiet_steps :=
  repeat first
    [ apply quiet_bind; [| intros ?]
    | apply quiet_print; reflexivity
    | match goal with |- quiet (if ?b then _ else _) => destruct b end
    | match goal with |- quiet (match ?p with (_, _) => _ end) => destruct p end
    | solve [auto with quiet] ].

Lemma quiet_main_setup : quiet main_setup.
Proof. unfold main_setup. quiet_steps. Qed.

Lemma quiet_point_load_inputs : quiet point_load_inputs.
Proof. unfold point_load_inputs. quiet_steps. Qed.

(** ** C9: a load position outside the span *)

Lemma position_check (a L : Q) :
  ltb 0 a && ltb a L = true <-> 0 < a /\ a < L.
Proof. now rewrite andb_true_iff, !ltb_true. Qed.

(** From the check on, the analysis writes the error message and nothing
    else, and returns. *)
Lemma point_load_analysis_invalid (P L E I a : Q) (Lunits : Z) (c : world) :
  ~ (0 < a /\ a < L) ->
  point_load_analysis P L E I a Lunits c
  = (Ret tt, emit (Print invalid_position_message) c).
Proof.
  intros Hpos. unfold point_load_analysis.
  destruct (ltb 0 a && ltb a L) eqn:Hcheck; [| reflexivity].
  apply position_check in Hcheck. contradiction.
Qed.

(** C9. When the program has read a beam of span [L], the point-load case
    and a load at position [a] (both converted to metres), and [a] is not
    strictly between [0] and [L], it returns after writing the
    invalid-position message: all it has written is the events of the input
    phase (prompts, headers, retry messages) followed by that message, so no
    reaction, no deflection result, no figure and no completion line. *)
Theorem invalid_position_aborts (c : world) (L E I P a : Q) (Lunits : Z) :
  fst (main_setup c) = Ret (L, Lunits, E, I, 1%Z) ->
  fst (point_load_inputs (snd (main_setup c))) = Ret (P, a) ->
  ~ (0 < a /\ a < L) ->
  let c' := snd (point_load_inputs (snd (main_setup c))) in
  main c = (Ret tt, emit (Print invalid_position_message) c')
  /\ exists evs, stdout c' = stdout c ++ evs
                 /\ forallb input_event evs = true.
Proof.
  intros Hsetup Hinputs Hpos c'. split.
  - unfold main, bind. subst c'.
    destruct (main_setup c) as [o1 c1]. simpl in Hsetup, Hinputs |- *.
    subst o1. change (1 =? 1)%Z with true. cbv beta iota.
    destruct (point_load_inputs c1) as [o2 c2]. simpl in Hinputs |- *.
    subst o2. now apply point_load_analysis_invalid.
  - destruct (quiet_main_setup c) as [evs1 [Hout1 Hevs1]].
    destruct (quiet_point_load_inputs (snd (main_setup c)))
      as [evs2 [Hout2 Hevs2]].
    exists (evs1 ++ evs2). split.
    + subst c'. now rewrite Hout2, Hout1, app_assoc.
    + now rewrite forallb_app, Hevs1, Hevs2.
Qed.

Lemma invalid_position_aborts_witness :
  let c := World script_position_outside [] in
  let c' := snd (point_load_inputs (snd (main_setup c))) in
  (fst (main_setup c) = Ret (4, 1%Z, inject_Z 200 * 1e9, 8e-6, 1%Z)
   /\ fst (point_load_inputs (snd (main_setup c)))
      = Ret (inject_Z (-10000), inject_Z 5)
   /\ ~ (0 < inject_Z 5 /\ inject_Z 5 < 4))
  /\ (main c = (Ret tt, emit (Print invalid_position_message) c')
      /\ exists evs, stdout c' = stdout c ++ evs
                     /\ forallb input_event evs = true).
Proof.
  intros c c'. split.
  - split; [reflexivity | split; [reflexivity |]].
    intros [_ H]. discriminate H.
  - apply (invalid_position_aborts c 4 (inject_Z 200 * 1e9) 8e-6
             (inject_Z (-10000)) (inject_Z 5) 1%Z).
    + reflexivity.
    + reflexivity.
    + intros [_ H]. discriminate H.
Defined.

(** ** C3 and C4: serviceability *)

Lemma serviceability_negligible (d limit : Q) :
  serviceability d limit = Negligible <-> d < NEGLIGIBLE_DEFLECTION.
Proof.
  unfold serviceability.
  destruct (ltb d NEGLIGIBLE_DEFLECTION) eqn:Hlt.
  - apply ltb_true in Hlt. tauto.
  - apply ltb_false in Hlt. split.
    + destruct (gtb d limit); discriminate.
    + intros H. exfalso. exact (Qlt_not_le _ _ H Hlt).
Qed.

Lemma serviceability_exceeds (d limit : Q) :
  serviceability d limit = ExceedsLimit
  <-> NEGLIGIBLE_DEFLECTION <= d /\ limit < d.
Proof.
  unfold serviceability, gtb.
  destruct (ltb d NEGLIGIBLE_DEFLECTION) eqn:Hlt.
  - apply ltb_true in Hlt. split; [discriminate | intros [H _]].
    exfalso. exact (Qlt_not_le _ _ Hlt H).
  - apply ltb_false in Hlt.
    destruct (ltb limit d) eqn:Hgt.
    + apply ltb_true in Hgt. tauto.
    + apply ltb_false in Hgt. split; [discriminate | intros [_ H]].
      exfalso. exact (Qlt_not_le _ _ H Hgt).
Qed.

Lemma serviceability_within (d limit : Q) :
  serviceability d limit = WithinLimit
  <-> NEGLIGIBLE_DEFLECTION <= d /\ d <= limit.
Proof.
  unfold serviceability, gtb.
  destruct (ltb d NEGLIGIBLE_DEFLECTION) eqn:Hlt.
  - apply ltb_true in Hlt. split; [discriminate | intros [H _]].
    exfalso. exact (Qlt_not_le _ _ Hlt H).
  - apply ltb_false in Hlt.
    destruct (ltb limit d) eqn:Hgt.
    + apply ltb_true in Hgt. split; [discriminate | intros [_ H]].
      exfalso. exact (Qlt_not_le _ _ Hgt H).
    + apply ltb_false in Hgt. tauto.
Qed.

(** C4. The serviceability check has three outcomes, decided in this
    order: negligible when the deflection is below 0.001 mm, whatever the
    limit; otherwise exceeding when it is above the limit; otherwise within
    the limit.  The limit is the span in mm divided by 250.  A deflection of
    0.0005 mm on a 5 m span (limit 20 mm) is negligible; a deflection of
    25 mm on a 5000 mm span (limit 20 mm) exceeds the limit. *)
Theorem serviceability_classification :
  (forall d limit : Q,
     (serviceability d limit = Negligible <-> d < NEGLIGIBLE_DEFLECTION)
     /\ (serviceability d limit = ExceedsLimit
         <-> NEGLIGIBLE_DEFLECTION <= d /\ limit < d)
     /\ (serviceability d limit = WithinLimit
         <-> NEGLIGIBLE_DEFLECTION <= d /\ d <= limit))
  /\ (forall L : Q, LIMIT L == (L * 1000) / 250)
  /\ (forall L_mm : Q,
        returns (option_map LIMIT (convert_length L_mm 2)) (L_mm / 250))
  /\ (LIMIT 5 == 20 /\ serviceability 0.0005 (LIMIT 5) = Negligible)
  /\ (returns (option_map LIMIT (convert_length 5000 2)) 20
      /\ option_map (serviceability 25) (option_map LIMIT (convert_length 5000 2))
         = Some ExceedsLimit).
Proof.
  split; [| split; [| split; [| split]]].
  - intros d limit. split; [| split].
    + apply serviceability_negligible.
    + apply serviceability_exceeds.
    + apply serviceability_within.
  - intros L. reflexivity.
  - intros L_mm. unfold returns, convert_length, LIMIT. cbn [Z.eqb Pos.eqb option_map].
    field.
  - split; reflexivity.
  - split; reflexivity.
Qed.

(** C3 (the program departs from it). On [script_upward_load] the deflection
    is -25/3 mm, of absolute value above 0.001 mm, and the program prints
    the negligible-deflection message: the check compares the signed
    deflection, not its absolute value. *)
Theorem upward_deflection_reported_negligible :
  exists delta,
    point_load_ssb (inject_Z (-10000)) 4 (inject_Z 200 * 1e9) 8e-6 (inject_Z 2)
    = Ret delta
    /\ delta * 1000 == - (25 # 3)
    /\ NEGLIGIBLE_DEFLECTION <= Qabs (delta * 1000)
    /\ serviceability (delta * 1000) (LIMIT 4) = Negligible
    /\ fst (run script_upward_load) = Ret tt
    /\ In (Print negligible_message) (stdout (snd (run script_upward_load))).
Proof.
  eexists. split; [reflexivity |].
  split; [reflexivity |].
  split; [vm_compute; discriminate |].
  split; [reflexivity |].
  split; [vm_compute; reflexivity |].
  vm_compute. do 18 right. left. reflexivity.
Qed.

(** ** The output of a valid point-load analysis *)

Lemma emits_nil (c : world) : emits [] c = c.
Proof. destruct c as [i o]. unfold emits. simpl. now rewrite app_nil_r. Qed.

Lemma emits_emits (evs evs' : list event) (c : world) :
  emits evs' (emits evs c) = emits (evs ++ evs') c.
Proof. unfold emits. simpl. now rewrite app_assoc. Qed.

Lemma outputs_ret {A} (a : A) : outputs (ret a) a [].
Proof. intros c. now rewrite emits_nil. Qed.

Lemma outputs_lift {A} (a : A) : outputs (lift (Ret a)) a [].
Proof. intros c. now rewrite emits_nil. Qed.

Lemma outputs_print (fs : list frag) : outputs (print fs) tt [Print fs].
Proof. intros c. reflexivity. Qed.

Lemma outputs_show (f : figure) : outputs (show f) tt [Show f].
Proof. intros c. reflexivity. Qed.

Lemma outputs_bind {A B} (m : IO A) (k : A -> IO B) (a : A) (b : B)
    (evs evs' : list event) :
  outputs m a evs -> outputs (k a) b evs' -> outputs (bind m k) b (evs ++ evs').
Proof.
  intros Hm Hk c. unfold bind. rewrite Hm, Hk. now rewrite emits_emits.
Qed.

Lemma outputs_eq {A} (m : IO A) (a : A) (evs evs' : list event) :
  outputs m a evs -> evs = evs' -> outputs m a evs'.
Proof. now intros H <-. Qed.

Lemma reactions_point_load_outputs (P L a : Q) :
  ~ L == 0 ->
  outputs (reactions_point_load P L a) (P * (L - a) / L, P * a / L)
    [Print [Lit (nl ++ "---Reaction Forces---")];
     Print [Lit "Left Reaction  = "; Num 3 (P * (L - a) / L); Lit " N"];
     Print [Lit "Right Reaction = "; Num 3 (P * a / L); Lit " N"]].
Proof.
  intros HL c. unfold reactions_point_load, bind, lift.
  rewrite !truediv_defined by exact HL.
  unfold print, ret, emit, emits. simpl. now rewrite <- !app_assoc.
Qed.

Lemma axis_length_valid (x : list Q) (Lunits : Z) :
  In Lunits [1; 2; 3]%Z ->
  exists x_plot label, axis_length x Lunits = Some (x_plot, label).
Proof.
  intros [<- | [<- | [<- | []]]]; unfold axis_length; cbn [Z.eqb Pos.eqb];
    eauto.
Qed.

Lemma deflection_point_load_length (P L E I a : Q) (x : list Q) :
  length (deflection_point_load P L E I a x) = length x.
Proof.
  unfold deflection_point_load. rewrite !assign_length.
  unfold Np.zeros_like. apply length_map.
Qed.

Lemma min_defined (y : list Q) :
  (0 < length y)%nat -> exists lowest, Np.min y = Ret lowest.
Proof.
  destruct y as [|y0 y]; simpl; [lia | eauto].
Qed.

Lemma plot_sfd_point_outputs (R1 P a L : Q) (Lunits : Z) :
  In Lunits [1; 2; 3]%Z ->
  exists f, outputs (plot_sfd_point R1 P a L Lunits) tt [Show f]
            /\ y_data f = shear_point R1 P a (Np.linspace 0 L 400).
Proof.
  intros HU.
  destruct (axis_length_valid (Np.linspace 0 L 400) Lunits HU)
    as [x_plot [label Haxis]].
  eexists. split.
  - intros c. unfold plot_sfd_point, bind. rewrite Haxis. reflexivity.
  - reflexivity.
Qed.

Lemma plot_bmd_point_outputs (R1 P a L : Q) (Lunits : Z) :
  In Lunits [1; 2; 3]%Z ->
  exists f, outputs (plot_bmd_point R1 P a L Lunits) tt [Show f]
            /\ y_data f = moment_point R1 P a (Np.linspace 0 L 400).
Proof.
  intros HU.
  destruct (axis_length_valid (Np.linspace 0 L 400) Lunits HU)
    as [x_plot [label Haxis]].
  eexists. split.
  - intros c. unfold plot_bmd_point, bind. rewrite Haxis. reflexivity.
  - reflexivity.
Qed.

Lemma plot_point_load_ssb_outputs (P L E I a : Q) (Lunits : Z) :
  In Lunits [1; 2; 3]%Z ->
  exists f, outputs (plot_point_load_ssb P L E I a Lunits) tt [Show f]
            /\ y_data f
               = map (fun yi => yi * 1000)
                   (deflection_point_load P L E I a (Np.linspace 0 L 400)).
Proof.
  intros HU.
  destruct (min_defined
              (map (fun yi => yi * 1000)
                 (deflection_point_load P L E I a (Np.linspace 0 L 400))))
    as [lowest Hmin].
  { rewrite length_map, deflection_point_load_length.
    change 400%nat with (S 399). rewrite linspace_length; lia. }
  destruct HU as [<- | [<- | [<- | []]]];
    (eexists; split;
     [ intros c; unfold plot_point_load_ssb, bind, lift;
       cbn [Z.eqb Pos.eqb]; unfold ret; rewrite Hmin; reflexivity
     | reflexivity ]).
Qed.

(** On a validated beam and load position the point-load analysis raises
    nothing and writes, in this order: the reactions, the message of the
    serviceability verdict (if any), the result, the three figures and the
    completion line. *)
Lemma point_load_analysis_outputs (P L E I a : Q) (Lunits : Z) :
  0 < L -> 0 < E -> 0 < I -> 0 < a /\ a < L -> In Lunits [1; 2; 3]%Z ->
  let x := Np.linspace 0 L 400 in
  let R1 := P * (L - a) / L in
  let R2 := P * a / L in
  exists delta sfd bmd curve,
    point_load_ssb P L E I a = Ret delta
    /\ outputs (point_load_analysis P L E I a Lunits) tt
         ([Print [Lit (nl ++ "---Reaction Forces---")];
           Print [Lit "Left Reaction  = "; Num 3 R1; Lit " N"];
           Print [Lit "Right Reaction = "; Num 3 R2; Lit " N"]]
          ++ verdict_events (serviceability (delta * 1000) (LIMIT L))
          ++ [Print result_header;
              Print (result_line delta (delta * 1000));
              Show sfd; Show bmd; Show curve;
              Print [Lit (nl ++ "Analysis Complete.")]])
    /\ y_data sfd = shear_point R1 P a x
    /\ y_data bmd = moment_point R1 P a x
    /\ y_data curve
       = map (fun yi => yi * 1000) (deflection_point_load P L E I a x).
Proof.
  intros HL HE HI Hpos HU x R1 R2.
  assert (HLn : ~ L == 0) by lra.
  assert (HEI : 0 < E * I) by (apply Qmult_lt_0_compat; assumption).
  assert (HEIL : 0 < E * I * L) by (apply Qmult_lt_0_compat; assumption).
  destruct (plot_sfd_point_outputs R1 P a L Lunits HU) as [sfd [Hsfd Vs]].
  destruct (plot_bmd_point_outputs R1 P a L Lunits HU) as [bmd [Hbmd Ms]].
  destruct (plot_point_load_ssb_outputs P L E I a Lunits HU)
    as [curve [Hcurve ys]].
  exists (P * a * (L - a) * (L^2 - a^2 - (L - a)^2) / (6 * E * I * L)).
  exists sfd, bmd, curve.
  assert (Hdelta : point_load_ssb P L E I a
                   = Ret (P * a * (L - a) * (L^2 - a^2 - (L - a)^2)
                          / (6 * E * I * L))).
  { unfold point_load_ssb. apply truediv_defined. lra. }
  repeat split; try assumption.
  unfold point_load_analysis.
  replace (ltb 0 a && ltb a L) with true
    by (symmetry; now apply position_check).
  cbv [negb]. rewrite Hdelta.
  apply (outputs_eq _ _
    ([] ++ [Print [Lit (nl ++ "---Reaction Forces---")];
            Print [Lit "Left Reaction  = "; Num 3 R1; Lit " N"];
            Print [Lit "Right Reaction = "; Num 3 R2; Lit " N"]]
        ++ verdict_events
             (serviceability
                (P * a * (L - a) * (L^2 - a^2 - (L - a)^2)
                 / (6 * E * I * L) * 1000) (LIMIT L))
        ++ [Print result_header]
        ++ [Print (result_line
                     (P * a * (L - a) * (L^2 - a^2 - (L - a)^2)
                      / (6 * E * I * L))
                     (P * a * (L - a) * (L^2 - a^2 - (L - a)^2)
                      / (6 * E * I * L) * 1000))]
        ++ [Show sfd] ++ [Show bmd] ++ [Show curve]
        ++ [Print [Lit (nl ++ "Analysis Complete.")]]));
    [| reflexivity].
  eapply outputs_bind; [apply outputs_lift |].
  eapply outputs_bind; [now apply reactions_point_load_outputs |].
  cbv beta iota. fold R1.
  eapply outputs_bind.
  { destruct (serviceability _ _); simpl;
      [apply outputs_print | apply outputs_print | apply outputs_ret]. }
  eapply outputs_bind; [apply outputs_print |].
  eapply outputs_bind; [apply outputs_print |].
  eapply outputs_bind; [exact Hsfd |].
  eapply outputs_bind; [exact Hbmd |].
  eapply outputs_bind; [exact Hcurve |].
  apply outputs_print.
Qed.

(** On the 400 samples of the plot, sample [399 - i] mirrors sample [i]. *)
Lemma linspace_mirror (L : Q) (i : nat) :
  (i < 400)%nat ->
  nth (399 - i) (Np.linspace 0 L 400) 0
  == L - nth i (Np.linspace 0 L 400) 0.
Proof.
  intros Hi. change 400%nat with (S 399).
  rewrite !linspace_nth by lia.
  rewrite Nat2Z.inj_sub by lia. unfold Z.sub.
  rewrite inject_Z_plus, inject_Z_opp.
  change (inject_Z (Z.of_nat 399)) with 399. field.
Qed.

(** The plotted UDL deflection curve is symmetric about midspan. *)
Lemma deflection_udl_plot_symmetric (w L E I : Q) (i : nat) :
  0 < E -> 0 < I -> (i < 400)%nat ->
  let y := deflection_udl w L E I (Np.linspace 0 L 400) in
  nth (399 - i) y 0 == nth i y 0.
Proof.
  intros HE HI Hi y. unfold y.
  assert (Hlen : length (Np.linspace 0 L 400) = 400%nat).
  { change 400%nat with (S 399). apply linspace_length. lia. }
  rewrite !deflection_udl_nth by (rewrite Hlen; lia).
  rewrite linspace_mirror by exact Hi. field. split; lra.
Qed.

(** For a deflection that is not negative (every UDL deflection, since the
    intensity read is positive) the check does compare the magnitude. *)
Lemma serviceability_negligible_downward (d limit : Q) :
  0 <= d ->
  (serviceability d limit = Negligible <-> Qabs d < NEGLIGIBLE_DEFLECTION).
Proof.
  intros Hd. rewrite serviceability_negligible.
  now rewrite (Qabs_pos d Hd).
Qed.

(** An upward deflection is always reported negligible, whatever its
    magnitude. *)
Lemma serviceability_negligible_upward (d limit : Q) :
  d <= 0 -> serviceability d limit = Negligible.
Proof.
  intros Hd. apply serviceability_negligible.
  unfold NEGLIGIBLE_DEFLECTION. lra.
Qed.

(** ** The scenarios of the specification *)

Example scenario_point_load :
  exists R1 R2 delta,
    fst (reactions_point_load 10000 4 2 (World [] [])) = Ret (R1, R2)
    /\ R1 == 5000 /\ R2 == 5000
    /\ point_load_ssb 10000 4 200e9 8e-6 2 = Ret delta
    /\ delta == 1 # 120.
Proof. do 3 eexists. repeat split; reflexivity. Qed.

Example scenario_udl :
  exists R1 R2 delta,
    fst (reactions_udl 5000 6 (World [] [])) = Ret (R1, R2)
    /\ R1 == 15000 /\ R2 == 15000
    /\ udl_ssb 5000 6 30e9 0.02 = Ret delta
    /\ delta == 5 * 5000 * 6^4 / (384 * 30e9 * 0.02).
Proof. do 3 eexists. repeat split; reflexivity. Qed.

(** * Further properties *)

(** ** Guarded input *)

(** [choice_input] only returns one of the choices it was given. *)
Theorem choice_input_returns_listed (prompt : string) (valid_choices : list Z)
    (c : world) (v : Z) :
  fst (choice_input prompt valid_choices c) = Ret v -> In v valid_choices.
Proof. apply choice_input_loop_valid. Qed.

Lemma choice_input_returns_listed_witness :
  fst (choice_input "?" [1; 2]%Z (World [Garbage; IntLit 7; IntLit 2] []))
  = Ret 2%Z
  /\ In 2%Z [1; 2]%Z.
Proof.
  split.
  - reflexivity.
  - apply (choice_input_returns_listed "?" [1; 2]%Z
             (World [Garbage; IntLit 7; IntLit 2] []) 2%Z).
    reflexivity.
Defined.

Lemma choice_in_listed (valid_choices : list Z) (v : Z) :
  In v valid_choices -> existsb (Z.eqb v) valid_choices = true.
Proof.
  intros Hin. apply existsb_exists. exists v. split; [exact Hin |].
  apply Z.eqb_refl.
Qed.

(** [choice_input] skips every rejected line, printing a prompt and a retry
    message for each, and returns the first listed choice; the lines after
    it are left unread. *)
Theorem choice_input_accepts_first_listed (prompt : string)
    (valid_choices : list Z) (bad rest : list line) (v : Z)
    (out : list event) :
  forallb (choice_rejected valid_choices) bad = true ->
  In v valid_choices ->
  choice_input prompt valid_choices (World (bad ++ IntLit v :: rest) out)
  = (Ret v,
     World rest (out ++ flat_map (choice_retry prompt) bad ++ [Prompt prompt])).
Proof.
  intros Hbad Hv. unfold choice_input. simpl stdin. simpl stdout.
  revert out. induction bad as [|l bad IH]; intros out.
  - simpl. now rewrite (choice_in_listed _ _ Hv).
  - simpl in Hbad. apply andb_true_iff in Hbad. destruct Hbad as [Hl Hbad].
    specialize (IH Hbad).
    destruct l as [z | q |]; simpl in Hl |- *.
    + apply negb_true_iff in Hl. rewrite Hl. rewrite IH.
      now rewrite <- !app_assoc.
    + rewrite IH. now rewrite <- !app_assoc.
    + rewrite IH. now rewrite <- !app_assoc.
Qed.

Lemma choice_input_accepts_first_listed_witness :
  (forallb (choice_rejected [1; 2]%Z) [Garbage; IntLit 7; FloatLit 1] = true
   /\ In 2%Z [1; 2]%Z)
  /\ choice_input "?" [1; 2]%Z
       (World ([Garbage; IntLit 7; FloatLit 1] ++ IntLit 2 :: [IntLit 1]) [])
     = (Ret 2%Z,
        World [IntLit 1]
          ([] ++ flat_map (choice_retry "?") [Garbage; IntLit 7; FloatLit 1]
              ++ [Prompt "?"])).
Proof.
  split.
  - split; [reflexivity | right; left; reflexivity].
  - apply (choice_input_accepts_first_listed "?" [1; 2]%Z
             [Garbage; IntLit 7; FloatLit 1] [IntLit 1] 2%Z []).
    + reflexivity.
    + right; left; reflexivity.
Defined.

(** When no line is a listed choice, [choice_input] reads them all, asks
    once more and fails with [EOFError]. *)
Theorem choice_input_exhausted (prompt : string) (valid_choices : list Z)
    (lines : list line) (out : list event) :
  forallb (choice_rejected valid_choices) lines = true ->
  choice_input prompt valid_choices (World lines out)
  = (Raise EOFError,
     World [] (out ++ flat_map (choice_retry prompt) lines ++ [Prompt prompt])).
Proof.
  intros Hbad. unfold choice_input. simpl stdin. simpl stdout.
  revert out. induction lines as [|l lines IH]; intros out.
  - reflexivity.
  - simpl in Hbad. apply andb_true_iff in Hbad. destruct Hbad as [Hl Hbad].
    specialize (IH Hbad).
    destruct l as [z | q |]; simpl in Hl |- *.
    + apply negb_true_iff in Hl. rewrite Hl. rewrite IH.
      now rewrite <- !app_assoc.
    + rewrite IH. now rewrite <- !app_assoc.
    + rewrite IH. now rewrite <- !app_assoc.
Qed.

Lemma choice_input_exhausted_witness :
  forallb (choice_rejected [1; 2; 3]%Z) [IntLit 0; Garbage; IntLit 4] = true
  /\ choice_input "?" [1; 2; 3]%Z (World [IntLit 0; Garbage; IntLit 4] [])
     = (Raise EOFError,
        World []
          ([] ++ flat_map (choice_retry "?") [IntLit 0; Garbage; IntLit 4]
              ++ [Prompt "?"])).
Proof.
  split.
  - reflexivity.
  - apply (choice_input_exhausted "?" [1; 2; 3]%Z
             [IntLit 0; Garbage; IntLit 4] []).
    reflexivity.
Defined.

(** [positive_float] only returns numbers above zero. *)
Theorem positive_float_returns_positive (prompt : string) (c : world)
    (v : Q) :
  fst (positive_float prompt c) = Ret v -> 0 < v.
Proof. apply positive_float_loop_positive. Qed.

Lemma positive_float_returns_positive_witness :
  fst (positive_float "?" (World [IntLit 0; FloatLit (-2); FloatLit 2.5] []))
  = Ret 2.5
  /\ 0 < 2.5.
Proof.
  split.
  - reflexivity.
  - apply (positive_float_returns_positive "?"
             (World [IntLit 0; FloatLit (-2); FloatLit 2.5] []) 2.5).
    reflexivity.
Defined.

(** [positive_float] skips every line that is not a number above zero,
    printing a prompt and a retry message for each, and returns the first
    one that is; the lines after it are left unread. *)
Theorem positive_float_accepts_first_positive (prompt : string)
    (bad rest : list line) (l : line) (v : Q) (out : list event) :
  forallb positive_rejected bad = true ->
  float l = Ret v -> 0 < v ->
  positive_float prompt (World (bad ++ l :: rest) out)
  = (Ret v,
     World rest (out ++ flat_map (positive_retry prompt) bad ++ [Prompt prompt])).
Proof.
  intros Hbad Hl Hv. unfold positive_float. simpl stdin. simpl stdout.
  revert out. induction bad as [|l0 bad IH]; intros out.
  - simpl. rewrite Hl.
    replace (gtb v 0) with true by (symmetry; now apply ltb_true).
    reflexivity.
  - simpl in Hbad. apply andb_true_iff in Hbad. destruct Hbad as [Hl0 Hbad].
    specialize (IH Hbad). simpl.
    unfold positive_rejected in Hl0. unfold positive_retry.
    destruct (float l0) as [value | e] eqn:Hfl.
    + apply negb_true_iff in Hl0. rewrite Hl0. rewrite IH.
      now rewrite <- !app_assoc.
    + destruct l0; simpl in Hfl; try discriminate.
      injection Hfl as <-. rewrite IH. now rewrite <- !app_assoc.
Qed.

Lemma positive_float_accepts_first_positive_witness :
  (forallb positive_rejected [Garbage; IntLit 0; FloatLit (-1)] = true
   /\ float (FloatLit 2.5) = Ret 2.5 /\ 0 < 2.5)
  /\ positive_float "?"
       (World ([Garbage; IntLit 0; FloatLit (-1)] ++ FloatLit 2.5 :: [IntLit 1])
              [])
     = (Ret 2.5,
        World [IntLit 1]
          ([] ++ flat_map (positive_retry "?")
                   [Garbage; IntLit 0; FloatLit (-1)]
              ++ [Prompt "?"])).
Proof.
  split.
  - repeat split; reflexivity.
  - apply (positive_float_accepts_first_positive "?"
             [Garbage; IntLit 0; FloatLit (-1)] [IntLit 1] (FloatLit 2.5) 2.5
             []); reflexivity.
Defined.

(** When no line is a number above zero, [positive_float] reads them all,
    asks once more and fails with [EOFError]. *)
Theorem positive_float_exhausted (prompt : string) (lines : list line)
    (out : list event) :
  forallb positive_rejected lines = true ->
  positive_float prompt (World lines out)
  = (Raise EOFError,
     World [] (out ++ flat_map (positive_retry prompt) lines
                   ++ [Prompt prompt])).
Proof.
  intros Hbad. unfold positive_float. simpl stdin. simpl stdout.
  revert out. induction lines as [|l0 lines IH]; intros out.
  - reflexivity.
  - simpl in Hbad. apply andb_true_iff in Hbad. destruct Hbad as [Hl0 Hbad].
    specialize (IH Hbad). simpl.
    unfold positive_rejected in Hl0. unfold positive_retry.
    destruct (float l0) as [value | e] eqn:Hfl.
    + apply negb_true_iff in Hl0. rewrite Hl0. rewrite IH.
      now rewrite <- !app_assoc.
    + destruct l0; simpl in Hfl; try discriminate.
      injection Hfl as <-. rewrite IH. now rewrite <- !app_assoc.
Qed.

Lemma positive_float_exhausted_witness :
  forallb positive_rejected [Garbage; IntLit 0] = true
  /\ positive_float "?" (World [Garbage; IntLit 0] [])
     = (Raise EOFError,
        World []
          ([] ++ flat_map (positive_retry "?") [Garbage; IntLit 0]
              ++ [Prompt "?"])).
Proof.
  split.
  - reflexivity.
  - apply (positive_float_exhausted "?" [Garbage; IntLit 0] []). reflexivity.
Defined.

(** ** Unit conversion and axis scaling *)

Lemma unlisted_3 (u : Z) :
  ~ In u [1; 2; 3]%Z
  <-> (u =? 1)%Z = false /\ (u =? 2)%Z = false /\ (u =? 3)%Z = false.
Proof. rewrite !Z.eqb_neq. simpl. intuition congruence. Qed.

Lemma unlisted_2 (u : Z) :
  ~ In u [1; 2]%Z <-> (u =? 1)%Z = false /\ (u =? 2)%Z = false.
Proof. rewrite !Z.eqb_neq. simpl. intuition congruence. Qed.

(** A converter (and [axis_length]) returns [None] exactly on the unit
    codes it does not list: 1, 2, 3 for lengths, 1, 2 for the others. *)
Theorem converters_reject_unlisted_units (value : Q) (x : list Q) (u : Z) :
  (convert_length value u = None <-> ~ In u [1; 2; 3]%Z)
  /\ (axis_length x u = None <-> ~ In u [1; 2; 3]%Z)
  /\ (convert_E value u = None <-> ~ In u [1; 2]%Z)
  /\ (convert_I value u = None <-> ~ In u [1; 2]%Z)
  /\ (convert_load value u = None <-> ~ In u [1; 2]%Z)
  /\ (convert_udl value u = None <-> ~ In u [1; 2]%Z).
Proof.
  rewrite unlisted_3, unlisted_2.
  unfold convert_length, axis_length, convert_E, convert_I, convert_load,
    convert_udl.
  destruct (u =? 1)%Z, (u =? 2)%Z, (u =? 3)%Z;
    repeat split; intros; try discriminate; try reflexivity;
    repeat match goal with H : _ /\ _ |- _ => destruct H end;
    discriminate.
Qed.

Lemma mult_sign (v k : Q) : 0 < k -> (0 < v * k <-> 0 < v).
Proof. intros Hk. split; intros H; nra. Qed.

Lemma div_sign (v k : Q) : 0 < k -> (0 < v / k <-> 0 < v).
Proof.
  intros Hk. unfold Qdiv. apply mult_sign. now apply Qinv_lt_0_compat.
Qed.



(** The abscissas of a diagram are in the unit the length was entered in:
    for a length [value] entered with unit code [u], converted to [L] metres,
    the scaled sample positions run from 0 to [value], sample [i] at
    [i * (value / 399)]. *)
Theorem axis_restores_entered_length (value L : Q) (u : Z)
    (x_plot : list Q) (label : string) :
  convert_length value u = Some L ->
  axis_length (Np.linspace 0 L 400) u = Some (x_plot, label) ->
  length x_plot = 400%nat
  /\ nth 0 x_plot 0 == 0
  /\ nth 399 x_plot 0 == value
  /\ (forall i, (i < 400)%nat ->
        nth i x_plot 0 == inject_Z (Z.of_nat i) * (value / 399))
  /\ label = nth (Z.to_nat u) [""; "m"; "mm"; "cm"]%string ""%string.
Proof.
  intros Hconv Haxis.
  assert (Hlen : length (Np.linspace 0 L 400) = 400%nat).
  { change 400%nat with (S 399). apply linspace_length. lia. }
  assert (Hnth : forall i, (i < 400)%nat ->
            nth i (Np.linspace 0 L 400) 0
            == inject_Z (Z.of_nat i) * (L / 399)).
  { intros i Hi. change 400%nat with (S 399).
    rewrite linspace_nth by lia.
    change (inject_Z (Z.of_nat 399)) with 399. field. }
  remember (Np.linspace 0 L 400) as xs eqn:Hxs. clear Hxs.
  assert (Hscaled : forall i, (i < 400)%nat ->
            length x_plot = 400%nat
            /\ nth i x_plot 0 == inject_Z (Z.of_nat i) * (value / 399)
            /\ label = nth (Z.to_nat u) [""; "m"; "mm"; "cm"]%string ""%string).
  { intros i Hi. specialize (Hnth i Hi).
    unfold convert_length in Hconv. unfold axis_length in Haxis.
    destruct (u =? 1)%Z eqn:H1; [| destruct (u =? 2)%Z eqn:H2;
                                    [| destruct (u =? 3)%Z eqn:H3]];
      try discriminate;
      injection Hconv as <-; injection Haxis as <- <-.
    - apply Z.eqb_eq in H1. subst u. repeat split; try assumption.
    - apply Z.eqb_eq in H2. subst u. rewrite length_map. split; [exact Hlen |].
      split; [| reflexivity].
      rewrite (nth_map_in (fun xi => xi * 1000) _ 0) by (rewrite Hlen; lia).
      rewrite Hnth. field.
    - apply Z.eqb_eq in H3. subst u. rewrite length_map. split; [exact Hlen |].
      split; [| reflexivity].
      rewrite (nth_map_in (fun xi => xi * 100) _ 0) by (rewrite Hlen; lia).
      rewrite Hnth. field. }
  split; [apply (Hscaled 0%nat); lia |].
  split.
  { destruct (Hscaled 0%nat) as [_ [H0 _]]; [lia |].
    rewrite H0. change (inject_Z (Z.of_nat 0)) with 0. ring. }
  split.
  { destruct (Hscaled 399%nat) as [_ [H399 _]]; [lia |].
    rewrite H399. change (inject_Z (Z.of_nat 399)) with 399. field. }
  split.
  - intros i Hi. now apply Hscaled.
  - apply (Hscaled 0%nat). lia.
Qed.

Lemma axis_restores_entered_length_witness :
  (convert_length 2500 2 = Some (2500 / 1000)
   /\ axis_length (Np.linspace 0 (2500 / 1000) 400) 2
      = Some (map (fun xi => xi * 1000) (Np.linspace 0 (2500 / 1000) 400),
              "mm"%string))
  /\ nth 399 (map (fun xi => xi * 1000) (Np.linspace 0 (2500 / 1000) 400)) 0
     == 2500.
Proof.
  split.
  - split; reflexivity.
  - apply (axis_restores_entered_length 2500 (2500 / 1000) 2 _ "mm"%string);
      reflexivity.
Defined.

(** ** What a run of the program can and cannot do *)

Lemma behaves_ret {A} (a : A) (Q : A -> Prop) : Q a -> behaves (ret a) Q.
Proof.
  intros HQ c. split; [| exact HQ]. exists []. now rewrite app_nil_r.
Qed.

Lemma behaves_bind {A B} (m : IO A) (k : A -> IO B) (Q : A -> Prop)
    (R : B -> Prop) :
  behaves m Q -> (forall a, Q a -> behaves (k a) R) -> behaves (bind m k) R.
Proof.
  intros Hm Hk c. unfold bind.
  destruct (Hm c) as [[evs [Hout Hevs]] HQ].
  destruct (m c) as [[a | e] c1]; simpl in Hout, HQ.
  - destruct (Hk a HQ c1) as [[evs' [Hout' Hevs']] HR].
    split; [| exact HR].
    exists (evs ++ evs'). split.
    + now rewrite Hout', Hout, app_assoc.
    + now rewrite forallb_app, Hevs, Hevs'.
  - split; [| exact HQ]. exists evs. now split.
Qed.

Lemma behaves_weaken {A} (m : IO A) (Q R : A -> Prop) :
  behaves m Q -> (forall a, Q a -> R a) -> behaves m R.
Proof.
  intros Hm HQR c. destruct (Hm c) as [Hout HQ]. split; [exact Hout |].
  destruct (fst (m c)); [now apply HQR | exact HQ].
Qed.

Lemma behaves_outputs {A} (m : IO A) (a : A) (evs : list event)
    (Q : A -> Prop) :
  outputs m a evs -> forallb selection_error_free evs = true -> Q a ->
  behaves m Q.
Proof.
  intros Hm Hevs HQ c. unfold outputs in Hm. rewrite (Hm c). simpl.
  split; [| exact HQ].
  exists evs. split; [reflexivity | exact Hevs].
Qed.

Lemma behaves_print (fs : list frag) (Q : unit -> Prop) :
  selection_error_free (Print fs) = true -> Q tt -> behaves (print fs) Q.
Proof.
  intros Hfs HQ. apply (behaves_outputs _ tt [Print fs]);
    [ apply outputs_print
    | change (selection_error_free (Print fs) && true = true); now rewrite Hfs
    | exact HQ ].
Qed.

Lemma behaves_float_input (prompt : string) :
  behaves (float_input prompt) (fun _ => True).
Proof.
  intros c. unfold float_input, bind, input, lift.
  destruct (stdin c) as [|l rest]; simpl.
  - split; [| now left]. exists [Prompt prompt]. now split.
  - split; [exists [Prompt prompt]; now split |].
    destruct l; simpl; try exact I. now right.
Qed.

Lemma behaves_choice_input (prompt : string) (valid_choices : list Z) :
  behaves (choice_input prompt valid_choices) (fun v => In v valid_choices).
Proof.
  intros [lines out]. unfold choice_input. simpl stdin. simpl stdout.
  revert out. induction lines as [|l rest IH]; intros out; simpl.
  - split; [| now left]. exists [Prompt prompt]. now split.
  - destruct (int l) as [value | e] eqn:Hint.
    + destruct (existsb (Z.eqb value) valid_choices) eqn:Hin.
      * simpl. split; [exists [Prompt prompt]; now split |].
        apply existsb_exists in Hin. destruct Hin as [z [Hz Heq]].
        apply Z.eqb_eq in Heq. now subst.
      * destruct (IH ((out ++ [Prompt prompt])
                      ++ [Print [Lit "Invalid choice. Try again."]]))
          as [[evs [Hout Hevs]] HQ].
        split; [| exact HQ].
        exists (Prompt prompt :: Print [Lit "Invalid choice. Try again."] :: evs).
        split; [| exact Hevs]. rewrite Hout, <- !app_assoc. reflexivity.
    + destruct l; simpl in Hint; try discriminate; injection Hint as <-.
      * destruct (IH ((out ++ [Prompt prompt])
                      ++ [Print [Lit "Enter a valid number."]]))
          as [[evs [Hout Hevs]] HQ].
        split; [| exact HQ].
        exists (Prompt prompt :: Print [Lit "Enter a valid number."] :: evs).
        split; [| exact Hevs]. rewrite Hout, <- !app_assoc. reflexivity.
      * destruct (IH ((out ++ [Prompt prompt])
                      ++ [Print [Lit "Enter a valid number."]]))
          as [[evs [Hout Hevs]] HQ].
        split; [| exact HQ].
        exists (Prompt prompt :: Print [Lit "Enter a valid number."] :: evs).
        split; [| exact Hevs]. rewrite Hout, <- !app_assoc. reflexivity.
Qed.

Lemma behaves_positive_float (prompt : string) :
  behaves (positive_float prompt) (fun v => 0 < v).
Proof.
  intros [lines out]. unfold positive_float. simpl stdin. simpl stdout.
  revert out. induction lines as [|l rest IH]; intros out; simpl.
  - split; [| now left]. exists [Prompt prompt]. now split.
  - destruct (float l) as [value | e] eqn:Hfl.
    + destruct (gtb value 0) eqn:Hpos.
      * simpl. split; [exists [Prompt prompt]; now split |].
        now apply ltb_true in Hpos.
      * destruct (IH ((out ++ [Prompt prompt])
                      ++ [Print [Lit "Value must be greater than zero."]]))
          as [[evs [Hout Hevs]] HQ].
        split; [| exact HQ].
        exists (Prompt prompt
                  :: Print [Lit "Value must be greater than zero."] :: evs).
        split; [| exact Hevs]. rewrite Hout, <- !app_assoc. reflexivity.
    + destruct l; simpl in Hfl; try discriminate; injection Hfl as <-.
      destruct (IH ((out ++ [Prompt prompt])
                    ++ [Print [Lit "Enter a valid number."]]))
        as [[evs [Hout Hevs]] HQ].
      split; [| exact HQ].
      exists (Prompt prompt :: Print [Lit "Enter a valid number."] :: evs).
      split; [| exact Hevs]. rewrite Hout, <- !app_assoc. reflexivity.
Qed.

Lemma behaves_number {A} (o : option A) (v : A) (Q : A -> Prop) :
  o = Some v -> Q v -> behaves (number o) Q.
Proof. intros -> HQ. now apply behaves_ret. Qed.

(** The converters on the codes [choice_input] can return. *)
Lemma convert_length_listed (value : Q) (u : Z) :
  In u [1; 2; 3]%Z -> exists r, convert_length value u = Some r
                                /\ (0 < r <-> 0 < value).
Proof.
  intros [<- | [<- | [<- | []]]]; eexists; (split; [reflexivity |]);
    first [reflexivity | apply div_sign; reflexivity].
Qed.

Lemma convert_E_listed (value : Q) (u : Z) :
  In u [1; 2]%Z -> exists r, convert_E value u = Some r
                             /\ (0 < r <-> 0 < value).
Proof.
  intros [<- | [<- | []]]; eexists; (split; [reflexivity |]);
    apply mult_sign; reflexivity.
Qed.

Lemma convert_I_listed (value : Q) (u : Z) :
  In u [1; 2]%Z -> exists r, convert_I value u = Some r
                             /\ (0 < r <-> 0 < value).
Proof.
  intros [<- | [<- | []]]; eexists; (split; [reflexivity |]);
    first [reflexivity | apply mult_sign; reflexivity].
Qed.

Lemma convert_load_listed (value : Q) (u : Z) :
  In u [1; 2]%Z -> exists r, convert_load value u = Some r
                             /\ (0 < r <-> 0 < value).
Proof.
  intros [<- | [<- | []]]; eexists; (split; [reflexivity |]);
    first [reflexivity | apply mult_sign; reflexivity].
Qed.

Lemma convert_udl_listed (value : Q) (u : Z) :
  In u [1; 2]%Z -> exists r, convert_udl value u = Some r
                             /\ (0 < r <-> 0 < value).
Proof.
  intros [<- | [<- | []]]; eexists; (split; [reflexivity |]);
    first [reflexivity | apply mult_sign; reflexivity].
Qed.

Lemma main_setup_behaves : behaves main_setup setup_ok.
Proof.
  unfold main_setup.
  eapply behaves_bind; [apply (behaves_print _ (fun _ => True)); easy |].
  intros _ _.
  eapply behaves_bind; [apply (behaves_print _ (fun _ => True)); easy |].
  intros _ _.
  eapply behaves_bind; [apply (behaves_print _ (fun _ => True)); easy |].
  intros _ _.
  eapply behaves_bind; [apply behaves_positive_float |]. intros L0 HL0.
  eapply behaves_bind; [apply behaves_choice_input |]. intros Lunits HLu.
  destruct (convert_length_listed L0 Lunits HLu) as [L [HcL HL]].
  eapply behaves_bind;
    [apply (behaves_number _ L (fun r => 0 < r) HcL); now apply HL |].
  clear L HcL HL. intros L HL.
  eapply behaves_bind; [apply behaves_positive_float |]. intros E0 HE0.
  eapply behaves_bind; [apply behaves_choice_input |]. intros Eunits HEu.
  destruct (convert_E_listed E0 Eunits HEu) as [E [HcE HE]].
  eapply behaves_bind;
    [apply (behaves_number _ E (fun r => 0 < r) HcE); now apply HE |].
  clear E HcE HE. intros E HE.
  eapply behaves_bind; [apply behaves_positive_float |]. intros I0 HI0.
  eapply behaves_bind; [apply behaves_choice_input |]. intros Iunits HIu.
  destruct (convert_I_listed I0 Iunits HIu) as [I1 [HcI HI]].
  eapply behaves_bind;
    [apply (behaves_number _ I1 (fun r => 0 < r) HcI); now apply HI |].
  clear I1 HcI HI. intros I1 HI.
  eapply behaves_bind.
  { instantiate (1 := fun _ => True).
    destruct (ltb I1 1e-10);
      [apply behaves_print; easy | now apply behaves_ret]. }
  intros _ _.
  eapply behaves_bind; [apply (behaves_print _ (fun _ => True)); easy |].
  intros _ _.
  eapply behaves_bind; [apply behaves_choice_input |]. intros option Hopt.
  apply behaves_ret. unfold setup_ok. tauto.
Qed.

Lemma bind_returns {A B} (m : IO A) (k : A -> IO B) (c : world) (a : A) :
  fst (m c) = Ret a -> bind m k c = k a (snd (m c)).
Proof. unfold bind. destruct (m c) as [o c1]. simpl. now intros ->. Qed.

Lemma plot_sfd_udl_outputs (w L : Q) (Lunits : Z) :
  In Lunits [1; 2; 3]%Z ->
  exists f, outputs (plot_sfd_udl w L Lunits) tt [Show f]
            /\ y_data f = shear_udl w L (Np.linspace 0 L 400).
Proof.
  intros HU.
  destruct (axis_length_valid (Np.linspace 0 L 400) Lunits HU)
    as [x_plot [label Haxis]].
  eexists. split.
  - intros c. unfold plot_sfd_udl, bind. rewrite Haxis. reflexivity.
  - reflexivity.
Qed.

Lemma plot_bmd_udl_outputs (w L : Q) (Lunits : Z) :
  In Lunits [1; 2; 3]%Z ->
  exists f, outputs (plot_bmd_udl w L Lunits) tt [Show f]
            /\ y_data f = moment_udl w L (Np.linspace 0 L 400).
Proof.
  intros HU.
  destruct (axis_length_valid (Np.linspace 0 L 400) Lunits HU)
    as [x_plot [label Haxis]].
  eexists. split.
  - intros c. unfold plot_bmd_udl, bind. rewrite Haxis. reflexivity.
  - reflexivity.
Qed.

Lemma plot_udl_ssb_outputs (w L E I : Q) (Lunits : Z) :
  In Lunits [1; 2; 3]%Z ->
  exists f, outputs (plot_udl_ssb w L E I Lunits) tt [Show f]
            /\ y_data f
               = map (fun yi => yi * 1000)
                   (deflection_udl w L E I (Np.linspace 0 L 400)).
Proof.
  intros [<- | [<- | [<- | []]]];
    (eexists; split; [intros c; reflexivity | reflexivity]).
Qed.

Lemma bind_ret_run {A B} (a : A) (k : A -> IO B) (c : world) :
  bind (ret a) k c = k a c.
Proof. reflexivity. Qed.

Lemma reactions_udl_outputs (w L : Q) :
  outputs (reactions_udl w L) (w * L / 2, w * L / 2)
    [Print [Lit (nl ++ "---Reaction Forces---")];
     Print [Lit "Left Reaction  = "; Num 3 (w * L / 2); Lit " N"];
     Print [Lit "Right Reaction = "; Num 3 (w * L / 2); Lit " N"]].
Proof.
  intros c. unfold reactions_udl, bind, print, ret, emit, emits. simpl.
  now rewrite <- !app_assoc.
Qed.

(** Once an intensity and its unit have been read, the UDL analysis of a
    validated beam raises nothing and writes, in this order: the reactions,
    the message of the serviceability verdict, the result, the three
    figures and the completion line.  When the limit is exceeded the result
    is written twice: once with the warning and once after it. *)
Lemma udl_analysis_outputs (L E I : Q) (Lunits : Z) (c : world)
    (w0 w : Q) (wunits : Z) :
  0 < E -> 0 < I -> In Lunits [1; 2; 3]%Z ->
  fst (positive_float intensity_prompt c) = Ret w0 ->
  fst (choice_input intensity_units_prompt [1; 2]%Z
         (snd (positive_float intensity_prompt c))) = Ret wunits ->
  convert_udl w0 wunits = Some w ->
  let c' := snd (choice_input intensity_units_prompt [1; 2]%Z
                   (snd (positive_float intensity_prompt c))) in
  let x := Np.linspace 0 L 400 in
  let delta := 5 * w * L^4 / (384 * E * I) in
  exists sfd bmd curve,
    udl_analysis L E I Lunits c
    = (Ret tt,
       emits
         ([Print [Lit (nl ++ "---Reaction Forces---")];
           Print [Lit "Left Reaction  = "; Num 3 (w * L / 2); Lit " N"];
           Print [Lit "Right Reaction = "; Num 3 (w * L / 2); Lit " N"]]
          ++ verdict_events_udl (serviceability (delta * 1000) (LIMIT L))
               delta (delta * 1000)
          ++ [Print result_header;
              Print (result_line delta (delta * 1000));
              Show sfd; Show bmd; Show curve;
              Print [Lit (nl ++ "Analysis Complete.")]])
         c')
    /\ y_data sfd = shear_udl w L x
    /\ y_data bmd = moment_udl w L x
    /\ y_data curve = map (fun yi => yi * 1000) (deflection_udl w L E I x).
Proof.
  intros HE HI HU Hw0 Hwu Hconv c' x delta.
  assert (HEI : 0 < E * I) by (apply Qmult_lt_0_compat; assumption).
  destruct (plot_sfd_udl_outputs w L Lunits HU) as [sfd [Hsfd Vs]].
  destruct (plot_bmd_udl_outputs w L Lunits HU) as [bmd [Hbmd Ms]].
  destruct (plot_udl_ssb_outputs w L E I Lunits HU) as [curve [Hcurve ys]].
  exists sfd, bmd, curve. repeat split; try assumption.
  assert (Hdelta : udl_ssb w L E I = Ret delta).
  { unfold udl_ssb. apply truediv_defined. lra. }
  subst c'. unfold intensity_prompt, intensity_units_prompt in *.
  unfold udl_analysis.
  rewrite (bind_returns _ _ c w0 Hw0).
  rewrite (bind_returns _ _ _ wunits Hwu).
  rewrite Hconv. unfold number. rewrite bind_ret_run. rewrite Hdelta.
  generalize (snd
    (choice_input
       "Select your units [1.Newton per Metre(N/m), 2.Kilo Newton per Metre(kN/m)] = "
       [1; 2]%Z (snd (positive_float "Enter the Load Intensity = " c)))).
  apply (outputs_eq _ _
    ([] ++ [Print [Lit (nl ++ "---Reaction Forces---")];
            Print [Lit "Left Reaction  = "; Num 3 (w * L / 2); Lit " N"];
            Print [Lit "Right Reaction = "; Num 3 (w * L / 2); Lit " N"]]
        ++ verdict_events_udl (serviceability (delta * 1000) (LIMIT L))
             delta (delta * 1000)
        ++ [Print result_header]
        ++ [Print (result_line delta (delta * 1000))]
        ++ [Show sfd] ++ [Show bmd] ++ [Show curve]
        ++ [Print [Lit (nl ++ "Analysis Complete.")]]));
    [| reflexivity].
  eapply outputs_bind; [apply outputs_lift |].
  eapply outputs_bind; [apply reactions_udl_outputs |].
  cbv beta iota zeta.
  eapply outputs_bind.
  { destruct (serviceability _ _); simpl verdict_events_udl.
    - apply outputs_print.
    - apply (outputs_eq _ _ ([Print limit_warning] ++ [Print result_header]
                             ++ [Print (result_line delta (delta * 1000))]));
        [| reflexivity].
      eapply outputs_bind; [apply outputs_print |].
      eapply outputs_bind; [apply outputs_print |].
      apply outputs_print.
    - apply outputs_ret. }
  eapply outputs_bind; [apply outputs_print |].
  eapply outputs_bind; [apply outputs_print |].
  eapply outputs_bind; [exact Hsfd |].
  eapply outputs_bind; [exact Hbmd |].
  eapply outputs_bind; [exact Hcurve |].
  apply outputs_print.
Qed.





Lemma bind_raises {A B} (m : IO A) (k : A -> IO B) (c : world) (e : exn) :
  fst (m c) = Raise e -> bind m k c = (Raise e, snd (m c)).
Proof. unfold bind. destruct (m c) as [o c1]. simpl. now intros ->. Qed.

Lemma point_load_inputs_behaves : behaves point_load_inputs (fun _ => True).
Proof.
  unfold point_load_inputs.
  eapply behaves_bind; [apply behaves_float_input |]. intros P0 _.
  eapply behaves_bind; [apply behaves_choice_input |]. intros Punits HPu.
  destruct (convert_load_listed P0 Punits HPu) as [P [HcP _]].
  eapply behaves_bind;
    [apply (behaves_number _ P (fun _ => True) HcP); exact Logic.I |].
  clear P HcP. intros P _.
  eapply behaves_bind; [apply behaves_float_input |]. intros a0 _.
  eapply behaves_bind; [apply behaves_choice_input |]. intros aunits Hau.
  destruct (convert_length_listed a0 aunits Hau) as [a [Hca _]].
  eapply behaves_bind;
    [apply (behaves_number _ a (fun _ => True) Hca); exact Logic.I |].
  clear a Hca. intros a _.
  now apply behaves_ret.
Qed.

Lemma point_load_analysis_behaves (P L E I a : Q) (Lunits : Z) :
  0 < L -> 0 < E -> 0 < I -> In Lunits [1; 2; 3]%Z ->
  behaves (point_load_analysis P L E I a Lunits) (fun _ => True).
Proof.
  intros HL HE HI HU.
  destruct (ltb 0 a && ltb a L) eqn:Hcheck.
  - apply position_check in Hcheck.
    destruct (point_load_analysis_outputs P L E I a Lunits HL HE HI Hcheck HU)
      as [delta [sfd [bmd [curve [_ [Hout _]]]]]].
    apply (behaves_outputs _ tt _ _ Hout); [| exact Logic.I].
    destruct (serviceability (delta * 1000) (LIMIT L)); reflexivity.
  - intros c. rewrite point_load_analysis_invalid.
    + split; [| exact Logic.I].
      exists [Print invalid_position_message]. split; reflexivity.
    + intros Hpos. apply position_check in Hpos. congruence.
Qed.

Lemma udl_analysis_behaves (L E I : Q) (Lunits : Z) :
  0 < E -> 0 < I -> In Lunits [1; 2; 3]%Z ->
  behaves (udl_analysis L E I Lunits) (fun _ => True).
Proof.
  intros HE HI HU c.
  destruct (behaves_positive_float intensity_prompt c)
    as [[evs1 [Hout1 Hevs1]] HQ1].
  destruct (fst (positive_float intensity_prompt c)) as [w0 | e] eqn:Hw0.
  - destruct (behaves_choice_input intensity_units_prompt [1; 2]%Z
                (snd (positive_float intensity_prompt c)))
      as [[evs2 [Hout2 Hevs2]] HQ2].
    destruct (fst (choice_input intensity_units_prompt [1; 2]%Z
                     (snd (positive_float intensity_prompt c))))
      as [wunits | e] eqn:Hwu.
    + destruct (convert_udl_listed w0 wunits HQ2) as [w [Hconv _]].
      destruct (udl_analysis_outputs L E I Lunits c w0 w wunits
                  HE HI HU Hw0 Hwu Hconv)
        as [sfd [bmd [curve [Hrun _]]]].
      rewrite Hrun. split; [| exact Logic.I].
      eexists. split.
      * simpl. rewrite Hout2, Hout1, <- !app_assoc. reflexivity.
      * rewrite !forallb_app, Hevs1, Hevs2.
        destruct (serviceability _ _); reflexivity.
    + unfold udl_analysis.
      unfold intensity_prompt, intensity_units_prompt in *.
      rewrite (bind_returns _ _ c w0 Hw0).
      rewrite (bind_raises _ _ _ e Hwu). simpl.
      split; [| exact HQ2].
      exists (evs1 ++ evs2). split.
      * now rewrite Hout2, Hout1, app_assoc.
      * now rewrite forallb_app, Hevs1, Hevs2.
  - unfold udl_analysis. unfold intensity_prompt in *.
    rewrite (bind_raises _ _ c e Hw0). simpl.
    split; [| exact HQ1]. exists evs1. now split.
Qed.

Lemma main_behaves : behaves main (fun _ => True).
Proof.
  unfold main.
  eapply behaves_bind; [apply main_setup_behaves |].
  intros [[[[L Lunits] E] I0] option] (HL & HU & HE & HI & Hopt).
  destruct Hopt as [<- | [<- | []]].
  - change (1 =? 1)%Z with true. cbv iota zeta.
    eapply behaves_bind; [apply point_load_inputs_behaves |].
    intros [P a] _. now apply point_load_analysis_behaves.
  - change (2 =? 1)%Z with false. change (2 =? 2)%Z with true.
    cbv iota zeta. now apply udl_analysis_behaves.
Qed.





(** The message of the branch for a load type other than 1 and 2 is never
    written: [choice_input] only returns 1 or 2, so that branch of [main]
    is dead. *)
Theorem main_never_reports_invalid_selection (lines : list line) :
  forallb selection_error_free (stdout (snd (run lines))) = true.
Proof.
  destruct (main_behaves (World lines [])) as [[evs [Hout Hevs]] _].
  unfold run. rewrite Hout. exact Hevs.
Qed.

(** ** The mechanics at and beyond the edge of their domain *)




(** ** Reactions and diagrams *)

(** For a span [L > 0] the reactions of a point load are in moment
    equilibrium about both supports ([R2 * L == P * a] and
    [R1 * L == P * (L - a)]); for a downward load inside the span each
    reaction lies between [0] and [P]; a load at midspan gives equal
    reactions. *)
Theorem reactions_point_load_equilibrium (P L a : Q) (c : world) :
  0 < L -> 0 < a /\ a < L ->
  exists R1 R2,
    fst (reactions_point_load P L a c) = Ret (R1, R2)
    /\ R2 * L == P * a
    /\ R1 * L == P * (L - a)
    /\ (0 <= P -> (0 <= R1 /\ R1 <= P) /\ (0 <= R2 /\ R2 <= P))
    /\ (a == L / 2 -> R1 == R2).
Proof.
  intros HL [Ha0 HaL].
  assert (HLn : ~ L == 0) by lra.
  exists (P * (L - a) / L), (P * a / L).
  split; [now apply reactions_point_load_value |].
  split; [field; exact HLn |].
  split; [field; exact HLn |].
  split.
  - intros HP.
    assert (H1 : P * (L - a) / L == P * ((L - a) / L)) by (field; exact HLn).
    assert (H2 : P * a / L == P * (a / L)) by (field; exact HLn).
    assert (Hb : 0 <= (L - a) / L /\ (L - a) / L <= 1).
    { split.
      - apply Qle_shift_div_l; [exact HL | lra].
      - apply Qle_shift_div_r; [exact HL | lra]. }
    assert (Hc : 0 <= a / L /\ a / L <= 1).
    { split.
      - apply Qle_shift_div_l; [exact HL | lra].
      - apply Qle_shift_div_r; [exact HL | lra]. }
    rewrite H1, H2. destruct Hb, Hc. repeat split; nra.
  - intros Hmid. rewrite Hmid. field. exact HLn.
Qed.

Lemma reactions_point_load_equilibrium_witness :
  (0 < 4 /\ (0 < 1 /\ 1 < 4))
  /\ exists R1 R2,
       fst (reactions_point_load 8 4 1 (World [] [])) = Ret (R1, R2)
       /\ R2 * 4 == 8 * 1
       /\ R1 * 4 == 8 * (4 - 1)
       /\ (0 <= 8 -> (0 <= R1 /\ R1 <= 8) /\ (0 <= R2 /\ R2 <= 8))
       /\ (1 == 4 / 2 -> R1 == R2).
Proof.
  split.
  - repeat split; reflexivity.
  - apply (reactions_point_load_equilibrium 8 4 1 (World [] [])).
    + reflexivity.
    + split; reflexivity.
Defined.

(** Right of the load the point-load shear is minus the right reaction: at
    every sample position at or beyond [a], the shear computed from the
    left reaction returned by [reactions_point_load] equals [- R2]. *)
Theorem shear_right_of_load (P L a : Q) (c : world) (R1 R2 : Q)
    (x : list Q) (i : nat) :
  0 < L ->
  fst (reactions_point_load P L a c) = Ret (R1, R2) ->
  (i < length x)%nat -> a <= nth i x 0 ->
  nth i (shear_point R1 P a x) 0 == - R2.
Proof.
  intros HL HR Hi Hx.
  rewrite reactions_point_load_value in HR by exact HL.
  injection HR as <- <-.
  rewrite shear_point_nth by exact Hi.
  replace (ltb (nth i x 0) a) with false by (symmetry; now apply ltb_false).
  field. lra.
Qed.

Lemma shear_right_of_load_witness :
  (0 < 4
   /\ fst (reactions_point_load 8 4 1 (World [] []))
      = Ret (8 * (4 - 1) / 4, 8 * 1 / 4)
   /\ (2 < length [0; 1; 3])%nat /\ 1 <= nth 2 [0; 1; 3] 0)
  /\ nth 2 (shear_point (8 * (4 - 1) / 4) 8 1 [0; 1; 3]) 0 == - (8 * 1 / 4).
Proof.
  split.
  - repeat split; try reflexivity; try (simpl; lia). discriminate.
  - apply (shear_right_of_load 8 4 1 (World [] []) _ _ [0; 1; 3] 2).
    + reflexivity.
    + reflexivity.
    + simpl; lia.
    + discriminate.
Defined.

Lemma square_nonneg (q : Q) : 0 <= q * q.
Proof. nra. Qed.

Lemma scale_le (k x y : Q) : 0 <= k -> x <= y -> k * x <= k * y.
Proof. intros Hk Hxy. nra. Qed.

Lemma scale_lt (k x y : Q) : 0 < k -> x < y -> k * x < k * y.
Proof. intros Hk Hxy. nra. Qed.

(** For a downward point load inside the span, the moment diagram is
    nowhere negative on the beam and nowhere above its value at the load,
    [P * a * (L - a) / L]. *)
Theorem moment_point_peaks_at_load (P L a : Q) (c : world) (R1 R2 : Q)
    (x : list Q) (i : nat) :
  0 < L -> 0 < a /\ a < L -> 0 <= P ->
  fst (reactions_point_load P L a c) = Ret (R1, R2) ->
  (i < length x)%nat -> 0 <= nth i x 0 /\ nth i x 0 <= L ->
  0 <= nth i (moment_point R1 P a x) 0
  /\ nth i (moment_point R1 P a x) 0 <= P * a * (L - a) / L.
Proof.
  intros HL [Ha0 HaL] HP HR Hi [Hx0 HxL].
  rewrite reactions_point_load_value in HR by exact HL.
  injection HR as <- _.
  assert (HLn : ~ L == 0) by lra.
  rewrite moment_point_nth by exact Hi.
  set (xi := nth i x 0) in *.
  assert (Hk : 0 <= P / L).
  { apply Qle_shift_div_l; [exact HL | lra]. }
  assert (Hpeak : P * a * (L - a) / L == (P / L) * (a * (L - a)))
    by (field; exact HLn).
  rewrite Hpeak.
  destruct (ltb xi a) eqn:Hlt.
  - apply ltb_true in Hlt.
    assert (Hm : P * (L - a) / L * xi == (P / L) * ((L - a) * xi))
      by (field; exact HLn).
    rewrite Hm. split.
    + apply Qmult_le_0_compat; [exact Hk | nra].
    + apply scale_le; [exact Hk | nra].
  - apply ltb_false in Hlt.
    assert (Hm : P * (L - a) / L * xi - P * (xi - a)
                 == (P / L) * (a * (L - xi)))
      by (field; exact HLn).
    rewrite Hm. split.
    + apply Qmult_le_0_compat; [exact Hk | nra].
    + apply scale_le; [exact Hk | nra].
Qed.

Lemma moment_point_peaks_at_load_witness :
  (0 < 4 /\ (0 < 1 /\ 1 < 4) /\ 0 <= 8
   /\ fst (reactions_point_load 8 4 1 (World [] []))
      = Ret (8 * (4 - 1) / 4, 8 * 1 / 4)
   /\ (1 < length [0; 3; 4])%nat
   /\ (0 <= nth 1 [0; 3; 4] 0 /\ nth 1 [0; 3; 4] 0 <= 4))
  /\ (0 <= nth 1 (moment_point (8 * (4 - 1) / 4) 8 1 [0; 3; 4]) 0
      /\ nth 1 (moment_point (8 * (4 - 1) / 4) 8 1 [0; 3; 4]) 0
         <= 8 * 1 * (4 - 1) / 4).
Proof.
  split.
  - repeat split; try reflexivity; try (simpl; lia); discriminate.
  - apply (moment_point_peaks_at_load 8 4 1 (World [] []) _ (8 * 1 / 4)
             [0; 3; 4] 1).
    + reflexivity.
    + split; reflexivity.
    + discriminate.
    + reflexivity.
    + simpl; lia.
    + split; discriminate.
Defined.

Lemma shear_udl_nth (w L : Q) (x : list Q) (i : nat) :
  (i < length x)%nat ->
  nth i (shear_udl w L x) 0 = w * L / 2 - w * nth i x 0.
Proof. intros Hi. unfold shear_udl. now rewrite (nth_map_in _ x 0). Qed.

(** The UDL shear diagram starts at the left reaction, ends at minus the
    right reaction, vanishes at midspan and is antisymmetric about it:
    samples that mirror each other carry opposite shears. *)
Theorem shear_udl_antisymmetric (w L : Q) (c : world) (R1 R2 : Q)
    (x : list Q) (i j : nat) :
  fst (reactions_udl w L c) = Ret (R1, R2) ->
  (i < length x)%nat -> (j < length x)%nat ->
  (nth i x 0 == 0 -> nth i (shear_udl w L x) 0 == R1)
  /\ (nth i x 0 == L -> nth i (shear_udl w L x) 0 == - R2)
  /\ (nth i x 0 == L / 2 -> nth i (shear_udl w L x) 0 == 0)
  /\ (nth j x 0 == L - nth i x 0 ->
      nth j (shear_udl w L x) 0 == - nth i (shear_udl w L x) 0).
Proof.
  intros HR Hi Hj. rewrite reactions_udl_value in HR.
  injection HR as <- <-.
  rewrite !shear_udl_nth by assumption.
  repeat split; intros Hx; rewrite Hx; field.
Qed.

Lemma shear_udl_antisymmetric_witness :
  (fst (reactions_udl 3 4 (World [] [])) = Ret (3 * 4 / 2, 3 * 4 / 2)
   /\ (0 < length [1; 3])%nat /\ (1 < length [1; 3])%nat)
  /\ ((nth 0 [1; 3] 0 == 0 -> nth 0 (shear_udl 3 4 [1; 3]) 0 == 3 * 4 / 2)
      /\ (nth 0 [1; 3] 0 == 4
          -> nth 0 (shear_udl 3 4 [1; 3]) 0 == - (3 * 4 / 2))
      /\ (nth 0 [1; 3] 0 == 4 / 2 -> nth 0 (shear_udl 3 4 [1; 3]) 0 == 0)
      /\ (nth 1 [1; 3] 0 == 4 - nth 0 [1; 3] 0 ->
          nth 1 (shear_udl 3 4 [1; 3]) 0
          == - nth 0 (shear_udl 3 4 [1; 3]) 0)).
Proof.
  split.
  - repeat split; try reflexivity; simpl; lia.
  - apply (shear_udl_antisymmetric 3 4 (World [] []) _ _ [1; 3] 0 1).
    + reflexivity.
    + simpl; lia.
    + simpl; lia.
Defined.

(** For a downward UDL the moment diagram is nowhere negative on the beam,
    nowhere above [w * L^2 / 8], reaches that value at midspan and takes
    equal values at samples that mirror each other. *)
Theorem moment_udl_peaks_at_midspan (w L : Q) (x : list Q) (i j : nat) :
  0 <= w -> (i < length x)%nat -> (j < length x)%nat ->
  (0 <= nth i x 0 /\ nth i x 0 <= L -> 0 <= nth i (moment_udl w L x) 0)
  /\ nth i (moment_udl w L x) 0 <= w * L^2 / 8
  /\ (nth i x 0 == L / 2 -> nth i (moment_udl w L x) 0 == w * L^2 / 8)
  /\ (nth j x 0 == L - nth i x 0 ->
      nth j (moment_udl w L x) 0 == nth i (moment_udl w L x) 0).
Proof.
  intros Hw Hi Hj. rewrite !moment_udl_nth by assumption.
  set (xi := nth i x 0). set (xj := nth j x 0). clearbody xi xj.
  assert (Hm : w * L / 2 * xi - w * xi ^ 2 / 2
               == (w * (1 # 2)) * (xi * (L - xi)))
    by field.
  assert (Hw2 : 0 <= w * (1 # 2)) by lra.
  split; [| split; [| split]].
  - intros [H0 HL]. rewrite Hm. apply Qmult_le_0_compat; [exact Hw2 | nra].
  - rewrite Hm.
    assert (Hpeak : w * L ^ 2 / 8 == (w * (1 # 2)) * (L * L * (1 # 4)))
      by field.
    rewrite Hpeak. apply scale_le; [exact Hw2 |].
    pose proof (square_nonneg (xi - L * (1 # 2))) as Hsq. nra.
  - intros Hx. rewrite Hx. field.
  - intros Hx. rewrite Hx. field.
Qed.

Lemma moment_udl_peaks_at_midspan_witness :
  (0 <= 3 /\ (0 < length [1; 3])%nat /\ (1 < length [1; 3])%nat)
  /\ ((0 <= nth 0 [1; 3] 0 /\ nth 0 [1; 3] 0 <= 4
       -> 0 <= nth 0 (moment_udl 3 4 [1; 3]) 0)
      /\ nth 0 (moment_udl 3 4 [1; 3]) 0 <= 3 * 4^2 / 8
      /\ (nth 0 [1; 3] 0 == 4 / 2
          -> nth 0 (moment_udl 3 4 [1; 3]) 0 == 3 * 4^2 / 8)
      /\ (nth 1 [1; 3] 0 == 4 - nth 0 [1; 3] 0 ->
          nth 1 (moment_udl 3 4 [1; 3]) 0 == nth 0 (moment_udl 3 4 [1; 3]) 0)).
Proof.
  split.
  - repeat split; try (simpl; lia). discriminate.
  - apply (moment_udl_peaks_at_midspan 3 4 [1; 3] 0 1).
    + discriminate.
    + simpl; lia.
    + simpl; lia.
Defined.

(** ** Deflections *)

(** Both deflection curves vanish at the supports: at a sample position
    equal to [0] or to [L] the point-load curve (for a load inside the span)
    and the UDL curve are zero. *)
Theorem deflection_zero_at_supports (P w L E I a : Q) (x : list Q) (i : nat) :
  0 < L -> 0 < E -> 0 < I -> 0 < a /\ a < L ->
  (i < length x)%nat ->
  nth i x 0 == 0 \/ nth i x 0 == L ->
  nth i (deflection_point_load P L E I a x) 0 == 0
  /\ nth i (deflection_udl w L E I x) 0 == 0.
Proof.
  intros HL HE HI [Ha0 HaL] Hi Hx.
  assert (HEI : 0 < E * I) by (apply Qmult_lt_0_compat; assumption).
  assert (HEIL : 0 < E * I * L) by (apply Qmult_lt_0_compat; assumption).
  rewrite deflection_point_load_nth, deflection_udl_nth by exact Hi.
  destruct Hx as [Hx | Hx].
  - destruct (ltb (nth i x 0) a) eqn:Hlt.
    + rewrite Hx. split; field; lra.
    + apply ltb_false in Hlt. rewrite Hx in Hlt. lra.
  - destruct (ltb (nth i x 0) a) eqn:Hlt.
    + apply ltb_true in Hlt. rewrite Hx in Hlt. lra.
    + rewrite Hx. split; field; lra.
Qed.

Lemma deflection_zero_at_supports_witness :
  (0 < 4 /\ 0 < 2 /\ 0 < 3 /\ (0 < 1 /\ 1 < 4)
   /\ (2 < length [0; 1; 4])%nat
   /\ (nth 2 [0; 1; 4] 0 == 0 \/ nth 2 [0; 1; 4] 0 == 4))
  /\ (nth 2 (deflection_point_load 10 4 2 3 1 [0; 1; 4]) 0 == 0
      /\ nth 2 (deflection_udl 5 4 2 3 [0; 1; 4]) 0 == 0).
Proof.
  split.
  - repeat split; try reflexivity; try (simpl; lia). right; reflexivity.
  - apply (deflection_zero_at_supports 10 5 4 2 3 1 [0; 1; 4] 2).
    + reflexivity.
    + reflexivity.
    + reflexivity.
    + split; reflexivity.
    + simpl; lia.
    + right; reflexivity.
Defined.

Lemma quartic_bound (s m : Q) :
  0 <= s -> s <= m * (1 # 4) -> 0 <= m ->
  0 <= s * m + s * s /\ s * m + s * s <= m * m * (5 # 16).
Proof. intros Hs0 Hs1 Hm. split; nra. Qed.

(** For a downward UDL the number returned by [udl_ssb] is the maximum of
    the deflection curve over the beam: at every sample position in
    [[0, L]] the curve is between [0] and that number. *)
Theorem udl_ssb_bounds_curve (w L E I : Q) (x : list Q) (i : nat) :
  0 <= w -> 0 < E -> 0 < I ->
  (i < length x)%nat -> 0 <= nth i x 0 /\ nth i x 0 <= L ->
  exists delta,
    udl_ssb w L E I = Ret delta
    /\ 0 <= nth i (deflection_udl w L E I x) 0
    /\ nth i (deflection_udl w L E I x) 0 <= delta.
Proof.
  intros Hw HE HI Hi [Hx0 HxL].
  assert (HEI : 0 < E * I) by (apply Qmult_lt_0_compat; assumption).
  assert (Hden : 0 < 24 * E * I) by lra.
  exists (5 * w * L^4 / (384 * E * I)). split.
  { unfold udl_ssb. apply truediv_defined. lra. }
  rewrite deflection_udl_nth by exact Hi.
  set (xi := nth i x 0) in *. clearbody xi.
  set (k := w / (24 * E * I)).
  assert (Hk : 0 <= k).
  { unfold k. apply Qle_shift_div_l; [exact Hden | lra]. }
  assert (Hs0 : 0 <= xi * (L - xi)) by nra.
  assert (Hs1 : xi * (L - xi) <= (L * L) * (1 # 4)).
  { pose proof (square_nonneg (xi - L * (1 # 2))). nra. }
  assert (Hm : 0 <= L * L) by apply square_nonneg.
  destruct (quartic_bound _ _ Hs0 Hs1 Hm) as [Hlow Hup].
  assert (Hy : w * xi * (L ^ 3 - 2 * L * xi ^ 2 + xi ^ 3) / (24 * E * I)
               == k * (xi * (L - xi) * (L * L)
                       + xi * (L - xi) * (xi * (L - xi))))
    by (unfold k; field; lra).
  assert (Hd : 5 * w * L ^ 4 / (384 * E * I)
               == k * (L * L * (L * L) * (5 # 16)))
    by (unfold k; field; lra).
  rewrite Hy, Hd. split.
  - apply Qmult_le_0_compat; assumption.
  - apply scale_le; assumption.
Qed.

Lemma udl_ssb_bounds_curve_witness :
  (0 <= 5 /\ 0 < 2 /\ 0 < 3 /\ (1 < length [0; 1; 4])%nat
   /\ (0 <= nth 1 [0; 1; 4] 0 /\ nth 1 [0; 1; 4] 0 <= 4))
  /\ exists delta,
       udl_ssb 5 4 2 3 = Ret delta
       /\ 0 <= nth 1 (deflection_udl 5 4 2 3 [0; 1; 4]) 0
       /\ nth 1 (deflection_udl 5 4 2 3 [0; 1; 4]) 0 <= delta.
Proof.
  split.
  - repeat split; try reflexivity; try (simpl; lia); discriminate.
  - apply (udl_ssb_bounds_curve 5 4 2 3 [0; 1; 4] 1).
    + discriminate.
    + reflexivity.
    + reflexivity.
    + simpl; lia.
    + split; discriminate.
Defined.

(** The deflection under a point load inside the span is
    [P * a^2 * (L - a)^2 / (3 * E * I * L)]: it has the sign of the load.
    So an upward load ([P <= 0]) always gets the verdict [Negligible],
    whatever its magnitude. *)
Theorem point_load_ssb_sign (P L E I a : Q) :
  0 < L -> 0 < E -> 0 < I -> 0 < a /\ a < L ->
  exists delta,
    point_load_ssb P L E I a = Ret delta
    /\ delta == P * a^2 * (L - a)^2 / (3 * E * I * L)
    /\ (0 < delta <-> 0 < P)
    /\ (P <= 0 -> serviceability (delta * 1000) (LIMIT L) = Negligible).
Proof.
  intros HL HE HI [Ha0 HaL].
  assert (HEI : 0 < E * I) by (apply Qmult_lt_0_compat; assumption).
  assert (HEIL : 0 < E * I * L) by (apply Qmult_lt_0_compat; assumption).
  exists (P * a * (L - a) * (L^2 - a^2 - (L - a)^2) / (6 * E * I * L)).
  split; [unfold point_load_ssb; apply truediv_defined; lra |].
  set (K := a * a * ((L - a) * (L - a)) / (3 * E * I * L)).
  assert (HK : 0 < K).
  { unfold K. apply Qlt_shift_div_l; [lra |].
    assert (0 < a * a) by nra. assert (0 < (L - a) * (L - a)) by nra.
    assert (0 < a * a * ((L - a) * (L - a)))
      by (apply Qmult_lt_0_compat; assumption).
    lra. }
  assert (Hdelta : P * a * (L - a) * (L^2 - a^2 - (L - a)^2) / (6 * E * I * L)
                   == P * K)
    by (unfold K; field; lra).
  split; [rewrite Hdelta; unfold K; field; lra |].
  split.
  - rewrite Hdelta. apply mult_sign. exact HK.
  - intros HP. apply serviceability_negligible. rewrite Hdelta.
    unfold NEGLIGIBLE_DEFLECTION.
    assert (P * K <= 0) by nra. lra.
Qed.

Lemma point_load_ssb_sign_witness :
  (0 < 4 /\ 0 < 2 /\ 0 < 3 /\ (0 < 1 /\ 1 < 4))
  /\ exists delta,
       point_load_ssb (-10) 4 2 3 1 = Ret delta
       /\ delta == -10 * 1^2 * (4 - 1)^2 / (3 * 2 * 3 * 4)
       /\ (0 < delta <-> 0 < -10)
       /\ (-10 <= 0 -> serviceability (delta * 1000) (LIMIT 4) = Negligible).
Proof.
  split.
  - repeat split; reflexivity.
  - apply (point_load_ssb_sign (-10) 4 2 3 1).
    + reflexivity.
    + reflexivity.
    + reflexivity.
    + split; reflexivity.
Defined.

(** A UDL of positive intensity, the only kind [main] reads, gives a
    positive deflection; for it the verdict [Negligible] is the one of the
    magnitude: it is given exactly when the absolute deflection is below
    the threshold. *)
Theorem udl_ssb_positive (w L E I limit : Q) :
  0 < w -> 0 < L -> 0 < E -> 0 < I ->
  exists delta,
    udl_ssb w L E I = Ret delta
    /\ 0 < delta
    /\ (serviceability (delta * 1000) limit = Negligible
        <-> Qabs (delta * 1000) < NEGLIGIBLE_DEFLECTION).
Proof.
  intros Hw HL HE HI.
  assert (HEI : 0 < E * I) by (apply Qmult_lt_0_compat; assumption).
  exists (5 * w * L^4 / (384 * E * I)).
  split; [unfold udl_ssb; apply truediv_defined; lra |].
  assert (Hpos : 0 < 5 * w * L^4 / (384 * E * I)).
  { apply Qlt_shift_div_l; [lra |].
    assert (0 < L * L) by nra.
    assert (0 < L * L * (L * L)) by (apply Qmult_lt_0_compat; assumption).
    assert (HL4 : L ^ 4 == L * L * (L * L)) by ring.
    rewrite HL4. nra. }
  split; [exact Hpos |].
  apply serviceability_negligible_downward. lra.
Qed.

Lemma udl_ssb_positive_witness :
  (0 < 5 /\ 0 < 4 /\ 0 < 2 /\ 0 < 3)
  /\ exists delta,
       udl_ssb 5 4 2 3 = Ret delta
       /\ 0 < delta
       /\ (serviceability (delta * 1000) 16 = Negligible
           <-> Qabs (delta * 1000) < NEGLIGIBLE_DEFLECTION).
Proof.
  split.
  - repeat split; reflexivity.
  - apply (udl_ssb_positive 5 4 2 3 16); reflexivity.
Defined.

(** The figure reported as the maximum deflection of a point load is the
    deflection under the load, not the maximum: for a downward load inside
    the span but off midspan, the deflection curve at a sample at midspan is
    strictly above the number returned by [point_load_ssb]. *)
Theorem point_load_ssb_below_midspan (P L E I a : Q) (x : list Q) (i : nat) :
  0 < L -> 0 < E -> 0 < I -> 0 < a /\ a < L -> ~ a == L / 2 -> 0 < P ->
  (i < length x)%nat -> nth i x 0 == L / 2 ->
  exists delta,
    point_load_ssb P L E I a = Ret delta
    /\ delta < nth i (deflection_point_load P L E I a x) 0.
Proof.
  intros HL HE HI [Ha0 HaL] Hoff HP Hi Hx.
  assert (HEI : 0 < E * I) by (apply Qmult_lt_0_compat; assumption).
  assert (HEIL : 0 < E * I * L) by (apply Qmult_lt_0_compat; assumption).
  assert (Hhalf : L / 2 == L * (1 # 2)) by field.
  exists (P * a * (L - a) * (L^2 - a^2 - (L - a)^2) / (6 * E * I * L)).
  split; [unfold point_load_ssb; apply truediv_defined; lra |].
  rewrite deflection_point_load_nth by exact Hi.
  apply Qlt_minus_iff.
  destruct (ltb (nth i x 0) a) eqn:Hlt.
  - (* the load is right of midspan *)
    apply ltb_true in Hlt. rewrite Hx, Hhalf in Hlt.
    assert (Hgap :
      P * (L - a) * nth i x 0 / (6 * L * E * I)
        * (L^2 - (L - a)^2 - (nth i x 0)^2)
      + - (P * a * (L - a) * (L^2 - a^2 - (L - a)^2) / (6 * E * I * L))
      == P * (L - a) * (a - L * (1 # 4))
           * ((a - L * (1 # 2)) * (a - L * (1 # 2)))
         / (3 * E * I * L))
      by (rewrite Hx; field; lra).
    rewrite Hgap. apply Qlt_shift_div_l; [lra |].
    assert (0 < P * (L - a)) by nra.
    assert (0 < a - L * (1 # 4)) by lra.
    assert (0 < (a - L * (1 # 2)) * (a - L * (1 # 2))) by nra.
    assert (0 < P * (L - a) * (a - L * (1 # 4)))
      by (apply Qmult_lt_0_compat; assumption).
    assert (0 < P * (L - a) * (a - L * (1 # 4))
                * ((a - L * (1 # 2)) * (a - L * (1 # 2))))
      by (apply Qmult_lt_0_compat; assumption).
    lra.
  - (* the load is left of midspan *)
    apply ltb_false in Hlt. rewrite Hx, Hhalf in Hlt.
    assert (Hleft : a < L * (1 # 2)).
    { destruct (Qlt_le_dec a (L * (1 # 2))) as [Hl | Hg]; [exact Hl |].
      exfalso. apply Hoff. rewrite Hhalf. lra. }
    assert (Hgap :
      P * a * (L - nth i x 0) / (6 * L * E * I)
        * (L^2 - a^2 - (L - nth i x 0)^2)
      + - (P * a * (L - a) * (L^2 - a^2 - (L - a)^2) / (6 * E * I * L))
      == P * a * (L * (3 # 4) - a)
           * ((a - L * (1 # 2)) * (a - L * (1 # 2)))
         / (3 * E * I * L))
      by (rewrite Hx; field; lra).
    rewrite Hgap. apply Qlt_shift_div_l; [lra |].
    assert (0 < P * a) by nra.
    assert (0 < L * (3 # 4) - a) by lra.
    assert (0 < (a - L * (1 # 2)) * (a - L * (1 # 2))) by nra.
    assert (0 < P * a * (L * (3 # 4) - a))
      by (apply Qmult_lt_0_compat; assumption).
    assert (0 < P * a * (L * (3 # 4) - a)
                * ((a - L * (1 # 2)) * (a - L * (1 # 2))))
      by (apply Qmult_lt_0_compat; assumption).
    lra.
Qed.

Lemma point_load_ssb_below_midspan_witness :
  (0 < 4 /\ 0 < 2 /\ 0 < 3 /\ (0 < 1 /\ 1 < 4) /\ ~ 1 == 4 / 2 /\ 0 < 10
   /\ (1 < length [0; 2; 4])%nat /\ nth 1 [0; 2; 4] 0 == 4 / 2)
  /\ exists delta,
       point_load_ssb 10 4 2 3 1 = Ret delta
       /\ delta < nth 1 (deflection_point_load 10 4 2 3 1 [0; 2; 4]) 0.
Proof.
  split.
  - repeat split; try reflexivity; try (simpl; lia). discriminate.
  - apply (point_load_ssb_below_midspan 10 4 2 3 1 [0; 2; 4] 1).
    + reflexivity.
    + reflexivity.
    + reflexivity.
    + split; reflexivity.
    + discriminate.
    + reflexivity.
    + simpl; lia.
    + reflexivity.
Defined.

(** ** The marker of the point-load deflection figure *)

Lemma min_fold_spec (l : list Q) (m0 : Q) :
  let r := fold_left (fun m v => if ltb v m then v else m) l m0 in
  (r = m0 \/ In r l) /\ r <= m0 /\ (forall v, In v l -> r <= v).
Proof.
  revert m0. induction l as [|v0 l IH]; intros m0; simpl.
  - split; [now left |]. split; [apply Qle_refl | intros v []].
  - destruct (IH (if ltb v0 m0 then v0 else m0)) as [Hin [Hle Hall]].
    destruct (ltb v0 m0) eqn:Hlt.
    + apply ltb_true in Hlt. split; [| split].
      * destruct Hin as [-> | Hin]; right; [now left | now right].
      * apply Qle_trans with v0; [exact Hle | now apply Qlt_le_weak].
      * intros v [<- | Hv]; [exact Hle | now apply Hall].
    + apply ltb_false in Hlt. split; [| split].
      * destruct Hin as [-> | Hin]; [now left | right; now right].
      * exact Hle.
      * intros v [<- | Hv]; [| now apply Hall].
        apply Qle_trans with m0; assumption.
Qed.

(** [min] returns an element that is below every element. *)
Lemma min_spec (y : list Q) (lowest : Q) :
  Np.min y = Ret lowest ->
  In lowest y /\ forall v, In v y -> lowest <= v.
Proof.
  destruct y as [|y0 y]; simpl; [discriminate |].
  intros [= <-]. destruct (min_fold_spec y y0) as [Hin [Hle Hall]].
  split.
  - destruct Hin as [-> | Hin]; [now left | now right].
  - intros v [<- | Hv]; [exact Hle | now apply Hall].
Qed.

Lemma linspace_400_nth (L : Q) (i : nat) :
  (i < 400)%nat ->
  nth i (Np.linspace 0 L 400) 0 == inject_Z (Z.of_nat i) * (L / 399).
Proof.
  intros Hi. change 400%nat with (S 399).
  rewrite linspace_nth by lia.
  change (inject_Z (Z.of_nat 399)) with 399. field.
Qed.

Lemma linspace_400_length (L : Q) : length (Np.linspace 0 L 400) = 400%nat.
Proof. change 400%nat with (S 399). apply linspace_length. lia. Qed.

(** For a span that is not negative the samples lie on the beam. *)
Lemma linspace_400_on_beam (L : Q) (i : nat) :
  0 <= L -> (i < 400)%nat ->
  0 <= nth i (Np.linspace 0 L 400) 0 /\ nth i (Np.linspace 0 L 400) 0 <= L.
Proof.
  intros HL Hi. rewrite linspace_400_nth by exact Hi.
  assert (Ht0 : 0 <= inject_Z (Z.of_nat i)).
  { unfold Qle. simpl. lia. }
  assert (Ht1 : inject_Z (Z.of_nat i) <= 399).
  { unfold Qle. simpl. lia. }
  assert (Hq : 0 <= L / 399).
  { apply Qle_shift_div_l; [reflexivity | lra]. }
  assert (HLq : L == 399 * (L / 399)) by field.
  set (q := L / 399) in *. set (t := inject_Z (Z.of_nat i)) in *.
  clearbody q t. split; [nra | rewrite HLq; nra].
Qed.

(** Under a downward load inside the span the curve is nowhere negative on
    the beam. *)
Lemma deflection_point_load_nonneg (P L E I a : Q) (x : list Q) (i : nat) :
  0 < L -> 0 < E -> 0 < I -> 0 < a /\ a < L -> 0 <= P ->
  (i < length x)%nat -> 0 <= nth i x 0 /\ nth i x 0 <= L ->
  0 <= nth i (deflection_point_load P L E I a x) 0.
Proof.
  intros HL HE HI [Ha0 HaL] HP Hi [Hx0 HxL].
  assert (HEI : 0 < E * I) by (apply Qmult_lt_0_compat; assumption).
  assert (HEIL : 0 < E * I * L) by (apply Qmult_lt_0_compat; assumption).
  rewrite deflection_point_load_nth by exact Hi.
  set (xi := nth i x 0) in *. clearbody xi.
  set (k := P / (6 * L * E * I)).
  assert (Hk : 0 <= k).
  { unfold k. apply Qle_shift_div_l; [lra | lra]. }
  assert (Hab : 0 <= a * (L - a)) by nra.
  destruct (ltb xi a) eqn:Hlt.
  - apply ltb_true in Hlt.
    assert (Hy : P * (L - a) * xi / (6 * L * E * I)
                   * (L ^ 2 - (L - a) ^ 2 - xi ^ 2)
                 == k * (((L - a) * xi)
                         * (L * L - (L - a) * (L - a) - xi * xi)))
      by (unfold k; field; lra).
    rewrite Hy. apply Qmult_le_0_compat; [exact Hk |].
    apply Qmult_le_0_compat; [nra |].
    assert (xi * xi <= a * a) by nra. nra.
  - apply ltb_false in Hlt.
    assert (Hy : P * a * (L - xi) / (6 * L * E * I)
                   * (L ^ 2 - a ^ 2 - (L - xi) ^ 2)
                 == k * ((a * (L - xi))
                         * (L * L - a * a - (L - xi) * (L - xi))))
      by (unfold k; field; lra).
    rewrite Hy. apply Qmult_le_0_compat; [exact Hk |].
    apply Qmult_le_0_compat; [nra |].
    assert ((L - xi) * (L - xi) <= (L - a) * (L - a)) by nra. nra.
Qed.

(** The figure [plot_point_load_ssb] shows, marker included. *)
Lemma plot_point_load_ssb_figure (P L E I a : Q) (Lunits : Z)
    (x_plot : list Q) (label : string) (lowest : Q) :
  axis_length (Np.linspace 0 L 400) Lunits = Some (x_plot, label) ->
  Np.min (map (fun yi => yi * 1000)
            (deflection_point_load P L E I a (Np.linspace 0 L 400)))
  = Ret lowest ->
  outputs (plot_point_load_ssb P L E I a Lunits) tt
    [Show (Figure "Deflection Curve — Simply Supported Beam (Point Load)"
             ("Beam Length (" ++ label ++ ")")
             "Deflection (mm)"
             x_plot
             (map (fun yi => yi * 1000)
                (deflection_point_load P L E I a (Np.linspace 0 L 400)))
             (Some (if (Lunits =? 2)%Z then a * 1000
                    else if (Lunits =? 3)%Z then a * 100 else a,
                    lowest)))].
Proof.
  intros Haxis Hmin c. unfold plot_point_load_ssb, bind, lift.
  unfold axis_length in Haxis.
  destruct (Lunits =? 1)%Z; [| destruct (Lunits =? 2)%Z;
                               [| destruct (Lunits =? 3)%Z]];
    try discriminate; injection Haxis as <- <-;
    unfold ret; rewrite Hmin; reflexivity.
Qed.

(** The marker of the point-load deflection figure is drawn at the load
    position (in the unit of the axis) and at the least plotted deflection.
    For a downward load that least value is 0, reached at the supports: the
    marker lies on the zero line, not on the curve under the load. *)
Theorem deflection_marker_on_axis (P L E I a : Q) (Lunits : Z) :
  0 < L -> 0 < E -> 0 < I -> 0 < a /\ a < L -> 0 <= P ->
  In Lunits [1; 2; 3]%Z ->
  exists f load_x lowest,
    outputs (plot_point_load_ssb P L E I a Lunits) tt [Show f]
    /\ marker f = Some (load_x, lowest)
    /\ returns (convert_length load_x Lunits) a
    /\ lowest == 0.
Proof.
  intros HL HE HI Hpos HP HU.
  set (x := Np.linspace 0 L 400).
  set (y := deflection_point_load P L E I a x).
  assert (Hlenx : length x = 400%nat) by apply linspace_400_length.
  assert (Hleny : length y = 400%nat).
  { unfold y. now rewrite deflection_point_load_length. }
  destruct (axis_length_valid x Lunits HU) as [x_plot [label Haxis]].
  destruct (min_defined (map (fun yi => yi * 1000) y)) as [lowest Hmin].
  { rewrite length_map, Hleny. lia. }
  pose proof (plot_point_load_ssb_figure P L E I a Lunits x_plot label lowest
                Haxis Hmin) as Hfig.
  eexists. exists (if (Lunits =? 2)%Z then a * 1000
                   else if (Lunits =? 3)%Z then a * 100 else a), lowest.
  split; [exact Hfig |]. split; [reflexivity |]. split.
  - destruct HU as [<- | [<- | [<- | []]]]; unfold returns, convert_length;
      cbn [Z.eqb Pos.eqb]; try reflexivity; field.
  - apply min_spec in Hmin. destruct Hmin as [Hin Hall].
    apply Qle_antisym.
    + assert (H0 : In (nth 0 (map (fun yi => yi * 1000) y) 0)
                     (map (fun yi => yi * 1000) y)).
      { apply nth_In. rewrite length_map, Hleny. lia. }
      apply Hall in H0.
      rewrite (nth_map_in (fun yi => yi * 1000) y 0) in H0
        by (rewrite Hleny; lia).
      assert (Hx0 : nth 0 x 0 == 0).
      { unfold x. rewrite linspace_400_nth by lia.
        change (inject_Z (Z.of_nat 0)) with 0. ring. }
      assert (Hy0 : nth 0 y 0 == 0).
      { unfold y. rewrite deflection_point_load_nth by (rewrite Hlenx; lia).
        destruct Hpos as [Ha0 HaL].
        replace (ltb (nth 0 x 0) a) with true
          by (symmetry; apply ltb_true; rewrite Hx0; exact Ha0).
        rewrite Hx0.
        assert (HEI : 0 < E * I) by (apply Qmult_lt_0_compat; assumption).
        assert (0 < E * I * L) by (apply Qmult_lt_0_compat; assumption).
        field. lra. }
      rewrite Hy0 in H0. lra.
    + destruct (In_nth _ _ 0 Hin) as [j [Hj Hnth]].
      rewrite length_map, Hleny in Hj.
      rewrite (nth_map_in (fun yi => yi * 1000) y 0) in Hnth
        by (rewrite Hleny; lia).
      assert (Hyj : 0 <= nth j y 0).
      { unfold y.
        apply (deflection_point_load_nonneg P L E I a x j HL HE HI Hpos HP);
          [rewrite Hlenx; lia | apply linspace_400_on_beam; [lra | lia]]. }
      rewrite <- Hnth. lra.
Qed.

Lemma deflection_marker_on_axis_witness :
  (0 < 4 /\ 0 < 2 /\ 0 < 3 /\ (0 < 1 /\ 1 < 4) /\ 0 <= 10
   /\ In 2%Z [1; 2; 3]%Z)
  /\ exists f load_x lowest,
       outputs (plot_point_load_ssb 10 4 2 3 1 2) tt [Show f]
       /\ marker f = Some (load_x, lowest)
       /\ returns (convert_length load_x 2) 1
       /\ lowest == 0.
Proof.
  split.
  - repeat split; try reflexivity; try discriminate. right; left; reflexivity.
  - apply (deflection_marker_on_axis 10 4 2 3 1 2).
    + reflexivity.
    + reflexivity.
    + reflexivity.
    + split; reflexivity.
    + discriminate.
    + right; left; reflexivity.
Defined.

(** On a unit code other than 1, 2, 3 every plot function fails before
    showing anything: the diagrams, which scale the axis through
    [axis_length], with [TypeError]; the deflection plots, which leave the
    axis unbound, with [UnboundLocalError]. *)
Theorem plots_fail_on_unlisted_unit (P w L E I a R1 : Q) (Lunits : Z)
    (c : world) :
  ~ In Lunits [1; 2; 3]%Z ->
  plot_sfd_point R1 P a L Lunits c = (Raise TypeError, c)
  /\ plot_bmd_point R1 P a L Lunits c = (Raise TypeError, c)
  /\ plot_sfd_udl w L Lunits c = (Raise TypeError, c)
  /\ plot_bmd_udl w L Lunits c = (Raise TypeError, c)
  /\ plot_point_load_ssb P L E I a Lunits c = (Raise UnboundLocalError, c)
  /\ plot_udl_ssb w L E I Lunits c = (Raise UnboundLocalError, c).
Proof.
  intros HU. apply unlisted_3 in HU. destruct HU as (H1 & H2 & H3).
  unfold plot_sfd_point, plot_bmd_point, plot_sfd_udl, plot_bmd_udl,
    plot_point_load_ssb, plot_udl_ssb, axis_length, bind.
  rewrite H1, H2, H3. repeat split; reflexivity.
Qed.

Lemma plots_fail_on_unlisted_unit_witness :
  ~ In 4%Z [1; 2; 3]%Z
  /\ (plot_sfd_point 5 10 1 4 4 (World [] []) = (Raise TypeError, World [] [])
      /\ plot_bmd_point 5 10 1 4 4 (World [] [])
         = (Raise TypeError, World [] [])
      /\ plot_sfd_udl 7 4 4 (World [] []) = (Raise TypeError, World [] [])
      /\ plot_bmd_udl 7 4 4 (World [] []) = (Raise TypeError, World [] [])
      /\ plot_point_load_ssb 10 4 2 3 1 4 (World [] [])
         = (Raise UnboundLocalError, World [] [])
      /\ plot_udl_ssb 7 4 2 3 4 (World [] [])
         = (Raise UnboundLocalError, World [] [])).
Proof.
  split.
  - intros [H | [H | [H | []]]]; discriminate H.
  - apply (plots_fail_on_unlisted_unit 10 7 4 2 3 1 5 4 (World [] [])).
    intros [H | [H | [H | []]]]; discriminate H.
Defined.

